(** * Arbol AVL de obstaculos: modelo y verificacion

    Shallow embedding of [src/logic/obstaculo.py], [src/logic/nodo_avl.py]
    and [src/logic/arbol_avl.py].

    - Python integers are unbounded: coordinates, heights and the entry
      counter are [Z].
    - [Optional[NodoAVL]] is the inductive [NodoAVL]: [Ninguno] is Python's
      [None], [Nodo o l r h] an object with fields [obstaculo], [izquierdo],
      [derecho], [altura].  The node graph is a strict tree (no node is ever
      reachable along two paths), so in-place mutation of a node is modelled
      by rebuilding it.
    - Attribute access on [None] raises [AttributeError] in Python; the
      tree-returning operations therefore live in the error monad
      [salida]. *)

From Stdlib Require Import ZArith List Bool Lia Sorted Permutation.
Import ListNotations.
Local Open Scope Z_scope.

(** ** Error monad *)

Inductive salida (A : Type) : Type :=
| Ok (a : A)
| AttributeError.
Arguments Ok {A} a.
Arguments AttributeError {A}.

Notation "x <- e ;; k" :=
  (match e with Ok x => k | AttributeError => AttributeError end)
  (at level 61, e at next level, right associativity).

(** ** obstaculo.py *)

Module Obstaculo.

Inductive TipoObstaculo : Type := ROCA | CONO | HUECO | ACEITE | BARRERA.

Record t : Type := mk
  { x : Z; y : Z; tipo : TipoObstaculo; ancho : Z; alto : Z }.

Definition es_BARRERA (tp : TipoObstaculo) : bool :=
  match tp with BARRERA => true | _ => false end.

(** [Obstaculo.__init__]: barriers always get height 100. *)
Definition init (x y : Z) (tipo : TipoObstaculo) (ancho alto : Z) : t :=
  mk x y tipo ancho (if es_BARRERA tipo then 100 else alto).

(** [esta_en_rango]; the debugging [print] has no effect on the result. *)
Definition esta_en_rango (self : t) (x_min x_max y_min y_max : Z) : bool :=
  let en_rango_x := (x_min <=? x self) && (x self <=? x_max) in
  let en_rango_y := (y_min <=? y self) && (y self <=? y_max) in
  en_rango_x && en_rango_y.

(** [__eq__] between two obstacles. *)
Definition eq (self other : t) : bool :=
  (x self =? x other) && (y self =? y other).

End Obstaculo.

(** ** nodo_avl.py *)

Inductive NodoAVL : Type :=
| Ninguno
| Nodo (obstaculo : Obstaculo.t) (izquierdo derecho : NodoAVL) (altura : Z).

(** [NodoAVL.__init__] *)
Definition NodoAVL_init (obstaculo : Obstaculo.t) : NodoAVL :=
  Nodo obstaculo Ninguno Ninguno 1.

(** Truth value of an [Optional[NodoAVL]] ([NodoAVL] defines neither
    [__bool__] nor [__len__]). *)
Definition es_nodo (nodo : NodoAVL) : bool :=
  match nodo with Ninguno => false | Nodo _ _ _ _ => true end.

(** [nodo.altura if nodo is not None else 0]: [ArbolAVL.obtener_altura] and
    the inline idiom of [obtener_factor_balance] / [actualizar_altura]. *)
Definition obtener_altura (nodo : NodoAVL) : Z :=
  match nodo with Ninguno => 0 | Nodo _ _ _ h => h end.

(** The methods below are only ever invoked on an existing node: every call
    site tests the receiver first, so the [Ninguno] rows are never used. *)
Definition obtener_factor_balance (self : NodoAVL) : Z :=
  match self with
  | Ninguno => 0
  | Nodo _ l r _ => obtener_altura l - obtener_altura r
  end.

Definition actualizar_altura (self : NodoAVL) : NodoAVL :=
  match self with
  | Ninguno => Ninguno
  | Nodo o l r _ => Nodo o l r (1 + Z.max (obtener_altura l) (obtener_altura r))
  end.

(** [es_mayor_que] and [es_igual_a] read only [self.obstaculo]; [self] is
    represented by that field. *)
Definition es_mayor_que (self_obstaculo otro_obstaculo : Obstaculo.t) : bool :=
  if Obstaculo.x self_obstaculo >? Obstaculo.x otro_obstaculo then true
  else if Obstaculo.x self_obstaculo =? Obstaculo.x otro_obstaculo
       then Obstaculo.y self_obstaculo >? Obstaculo.y otro_obstaculo
       else false.

Definition es_igual_a (self_obstaculo otro_obstaculo : Obstaculo.t) : bool :=
  (Obstaculo.x self_obstaculo =? Obstaculo.x otro_obstaculo)
  && (Obstaculo.y self_obstaculo =? Obstaculo.y otro_obstaculo).

(** ** arbol_avl.py *)

Record ArbolAVL : Type := mkArbol
  { raiz : NodoAVL; total_obstaculos : Z }.

Definition ArbolAVL_init : ArbolAVL := mkArbol Ninguno 0.

Definition rotar_derecha (nodo : NodoAVL) : salida NodoAVL :=
  match nodo with
  | Nodo o (Nodo ol ll lr hl) r h =>
      let nodo' := actualizar_altura (Nodo o lr r h) in
      Ok (actualizar_altura (Nodo ol ll nodo' hl))
  | _ => AttributeError
  end.

Definition rotar_izquierda (nodo : NodoAVL) : salida NodoAVL :=
  match nodo with
  | Nodo o l (Nodo or rl rr hr) h =>
      let nodo' := actualizar_altura (Nodo o l rl h) in
      Ok (actualizar_altura (Nodo or nodo' rr hr))
  | _ => AttributeError
  end.

Definition balancear (nodo : NodoAVL) : salida NodoAVL :=
  match nodo with
  | Ninguno => AttributeError
  | Nodo o l r h =>
      let factor_balance := obtener_factor_balance nodo in
      if (factor_balance >? 1) && es_nodo l
         && (obtener_factor_balance l >=? 0)
      then rotar_derecha nodo
      else if (factor_balance <? -1) && es_nodo r
              && (obtener_factor_balance r <=? 0)
      then rotar_izquierda nodo
      else if (factor_balance >? 1) && es_nodo l
              && (obtener_factor_balance l <? 0)
      then l' <- rotar_izquierda l ;; rotar_derecha (Nodo o l' r h)
      else if (factor_balance <? -1) && es_nodo r
              && (obtener_factor_balance r >? 0)
      then r' <- rotar_derecha r ;; rotar_izquierda (Nodo o l r' h)
      else Ok nodo
  end.

Arguments balancear : simpl never.

Fixpoint _buscar_obstaculo (nodo : NodoAVL) (obstaculo : Obstaculo.t)
  : NodoAVL :=
  match nodo with
  | Ninguno => Ninguno
  | Nodo o l r _ =>
      if es_igual_a o obstaculo then nodo
      else if es_mayor_que o obstaculo then _buscar_obstaculo l obstaculo
      else _buscar_obstaculo r obstaculo
  end.

Fixpoint _insertar_recursivo (nodo : NodoAVL) (obstaculo : Obstaculo.t)
  : salida NodoAVL :=
  match nodo with
  | Ninguno => Ok (NodoAVL_init obstaculo)
  | Nodo o l r h =>
      if es_mayor_que o obstaculo
      then l' <- _insertar_recursivo l obstaculo ;;
           balancear (actualizar_altura (Nodo o l' r h))
      else r' <- _insertar_recursivo r obstaculo ;;
           balancear (actualizar_altura (Nodo o l r' h))
  end.

Definition insertar (self : ArbolAVL) (obstaculo : Obstaculo.t)
  : salida (bool * ArbolAVL) :=
  match raiz self with
  | Ninguno =>
      Ok (true, mkArbol (NodoAVL_init obstaculo) (total_obstaculos self + 1))
  | Nodo _ _ _ _ =>
      if es_nodo (_buscar_obstaculo (raiz self) obstaculo)
      then Ok (false, self)
      else raiz' <- _insertar_recursivo (raiz self) obstaculo ;;
           Ok (true, mkArbol raiz' (total_obstaculos self + 1))
  end.

(** [_encontrar_minimo]: the [while] loop follows [izquierdo] links; each
    iteration moves to a child, so it is structural recursion. *)
Fixpoint _encontrar_minimo (nodo : NodoAVL) : salida NodoAVL :=
  match nodo with
  | Ninguno => AttributeError
  | Nodo _ Ninguno _ _ => Ok nodo
  | Nodo _ l _ _ => _encontrar_minimo l
  end.

(** [nodo.obstaculo] on an [Optional[NodoAVL]]. *)
Definition attr_obstaculo (nodo : NodoAVL) : salida Obstaculo.t :=
  match nodo with Ninguno => AttributeError | Nodo o _ _ _ => Ok o end.

Fixpoint _eliminar_recursivo (nodo : NodoAVL) (obstaculo : Obstaculo.t)
  : salida NodoAVL :=
  match nodo with
  | Ninguno => Ok Ninguno
  | Nodo o l r h =>
      if es_igual_a o obstaculo then
        match l, r with
        | Ninguno, Ninguno => Ok Ninguno
        | Ninguno, _ => Ok r
        | _, Ninguno => Ok l
        | _, _ =>
            sucesor <- _encontrar_minimo r ;;
            o' <- attr_obstaculo sucesor ;;
            r' <- _eliminar_recursivo r o' ;;
            balancear (actualizar_altura (Nodo o' l r' h))
        end
      else if es_mayor_que o obstaculo
      then l' <- _eliminar_recursivo l obstaculo ;;
           balancear (actualizar_altura (Nodo o l' r h))
      else r' <- _eliminar_recursivo r obstaculo ;;
           balancear (actualizar_altura (Nodo o l r' h))
  end.

Definition eliminar (self : ArbolAVL) (obstaculo : Obstaculo.t)
  : salida (bool * ArbolAVL) :=
  match raiz self with
  | Ninguno => Ok (false, self)
  | Nodo _ _ _ _ =>
      if negb (es_nodo (_buscar_obstaculo (raiz self) obstaculo))
      then Ok (false, self)
      else raiz' <- _eliminar_recursivo (raiz self) obstaculo ;;
           Ok (true, mkArbol raiz' (total_obstaculos self - 1))
  end.

(** [_buscar_rango_recursivo] appends to the shared list [resultado]; the
    list is threaded through the calls. *)
Fixpoint _buscar_rango_recursivo (nodo : NodoAVL) (x_min x_max y_min y_max : Z)
  (resultado : list Obstaculo.t) : list Obstaculo.t :=
  match nodo with
  | Ninguno => resultado
  | Nodo obstaculo l r _ =>
      let resultado :=
        if Obstaculo.esta_en_rango obstaculo x_min x_max y_min y_max
        then resultado ++ [obstaculo] else resultado in
      let resultado :=
        if Obstaculo.x obstaculo >=? x_min
        then _buscar_rango_recursivo l x_min x_max y_min y_max resultado
        else resultado in
      if Obstaculo.x obstaculo <=? x_max
      then _buscar_rango_recursivo r x_min x_max y_min y_max resultado
      else resultado
  end.

Definition buscar_en_rango (self : ArbolAVL) (x_min x_max y_min y_max : Z)
  : list Obstaculo.t :=
  _buscar_rango_recursivo (raiz self) x_min x_max y_min y_max [].

Fixpoint _recorrido_inorder_recursivo (nodo : NodoAVL)
  (resultado : list Obstaculo.t) : list Obstaculo.t :=
  match nodo with
  | Ninguno => resultado
  | Nodo o l r _ =>
      let resultado := _recorrido_inorder_recursivo l resultado in
      let resultado := resultado ++ [o] in
      _recorrido_inorder_recursivo r resultado
  end.

Definition recorrido_en_profundidad (self : ArbolAVL) : list Obstaculo.t :=
  _recorrido_inorder_recursivo (raiz self) [].

Definition obtener_total_obstaculos (self : ArbolAVL) : Z :=
  total_obstaculos self.

Definition esta_vacio (self : ArbolAVL) : bool := negb (es_nodo (raiz self)).

Definition limpiar (self : ArbolAVL) : ArbolAVL := mkArbol Ninguno 0.

(** ** Step-bounded reading of the recursion and the loops

    Python's recursion and [while] loops are not bounded a priori.  The
    functions below are the same code with a step budget: every call of a
    recursive function and every loop iteration uses one unit, and [None]
    means that the budget ran out before the code returned. *)

Notation "x <~ e ;; k" :=
  (match e with Some x => k | None => None end)
  (at level 61, e at next level, right associativity).

Fixpoint _buscar_obstaculo_comb (n : nat) (nodo : NodoAVL)
  (obstaculo : Obstaculo.t) : option NodoAVL :=
  match n with
  | O => None
  | S n =>
      match nodo with
      | Ninguno => Some Ninguno
      | Nodo o l r _ =>
          if es_igual_a o obstaculo then Some nodo
          else if es_mayor_que o obstaculo
               then _buscar_obstaculo_comb n l obstaculo
               else _buscar_obstaculo_comb n r obstaculo
      end
  end.

Fixpoint _insertar_recursivo_comb (n : nat) (nodo : NodoAVL)
  (obstaculo : Obstaculo.t) : option (salida NodoAVL) :=
  match n with
  | O => None
  | S n =>
      match nodo with
      | Ninguno => Some (Ok (NodoAVL_init obstaculo))
      | Nodo o l r h =>
          if es_mayor_que o obstaculo
          then sl <~ _insertar_recursivo_comb n l obstaculo ;;
               Some (l' <- sl ;; balancear (actualizar_altura (Nodo o l' r h)))
          else sr <~ _insertar_recursivo_comb n r obstaculo ;;
               Some (r' <- sr ;; balancear (actualizar_altura (Nodo o l r' h)))
      end
  end.

Definition insertar_comb (n : nat) (self : ArbolAVL) (obstaculo : Obstaculo.t)
  : option (salida (bool * ArbolAVL)) :=
  match raiz self with
  | Ninguno =>
      Some (Ok (true, mkArbol (NodoAVL_init obstaculo)
                        (total_obstaculos self + 1)))
  | Nodo _ _ _ _ =>
      encontrado <~ _buscar_obstaculo_comb n (raiz self) obstaculo ;;
      if es_nodo encontrado then Some (Ok (false, self))
      else s <~ _insertar_recursivo_comb n (raiz self) obstaculo ;;
           Some (raiz' <- s ;;
                 Ok (true, mkArbol raiz' (total_obstaculos self + 1)))
  end.

(** One unit per test of the [while] condition. *)
Fixpoint _encontrar_minimo_comb (n : nat) (nodo : NodoAVL)
  : option (salida NodoAVL) :=
  match n with
  | O => None
  | S n =>
      match nodo with
      | Ninguno => Some AttributeError
      | Nodo _ Ninguno _ _ => Some (Ok nodo)
      | Nodo _ l _ _ => _encontrar_minimo_comb n l
      end
  end.

Fixpoint _eliminar_recursivo_comb (n : nat) (nodo : NodoAVL)
  (obstaculo : Obstaculo.t) : option (salida NodoAVL) :=
  match n with
  | O => None
  | S n =>
      match nodo with
      | Ninguno => Some (Ok Ninguno)
      | Nodo o l r h =>
          if es_igual_a o obstaculo then
            match l, r with
            | Ninguno, Ninguno => Some (Ok Ninguno)
            | Ninguno, _ => Some (Ok r)
            | _, Ninguno => Some (Ok l)
            | _, _ =>
                ss <~ _encontrar_minimo_comb n r ;;
                match (sucesor <- ss ;; attr_obstaculo sucesor) with
                | AttributeError => Some AttributeError
                | Ok o' =>
                    sr <~ _eliminar_recursivo_comb n r o' ;;
                    Some (r' <- sr ;;
                          balancear (actualizar_altura (Nodo o' l r' h)))
                end
            end
          else if es_mayor_que o obstaculo
          then sl <~ _eliminar_recursivo_comb n l obstaculo ;;
               Some (l' <- sl ;; balancear (actualizar_altura (Nodo o l' r h)))
          else sr <~ _eliminar_recursivo_comb n r obstaculo ;;
               Some (r' <- sr ;; balancear (actualizar_altura (Nodo o l r' h)))
      end
  end.

Definition eliminar_comb (n : nat) (self : ArbolAVL) (obstaculo : Obstaculo.t)
  : option (salida (bool * ArbolAVL)) :=
  match raiz self with
  | Ninguno => Some (Ok (false, self))
  | Nodo _ _ _ _ =>
      encontrado <~ _buscar_obstaculo_comb n (raiz self) obstaculo ;;
      if negb (es_nodo encontrado) then Some (Ok (false, self))
      else s <~ _eliminar_recursivo_comb n (raiz self) obstaculo ;;
           Some (raiz' <- s ;;
                 Ok (true, mkArbol raiz' (total_obstaculos self - 1)))
  end.

Fixpoint _buscar_rango_recursivo_comb (n : nat) (nodo : NodoAVL)
  (x_min x_max y_min y_max : Z) (resultado : list Obstaculo.t)
  : option (list Obstaculo.t) :=
  match n with
  | O => None
  | S n =>
      match nodo with
      | Ninguno => Some resultado
      | Nodo obstaculo l r _ =>
          let resultado :=
            if Obstaculo.esta_en_rango obstaculo x_min x_max y_min y_max
            then resultado ++ [obstaculo] else resultado in
          resultado <~
            (if Obstaculo.x obstaculo >=? x_min
             then _buscar_rango_recursivo_comb n l x_min x_max y_min y_max
                    resultado
             else Some resultado) ;;
          if Obstaculo.x obstaculo <=? x_max
          then _buscar_rango_recursivo_comb n r x_min x_max y_min y_max
                 resultado
          else Some resultado
      end
  end.

Definition buscar_en_rango_comb (n : nat) (self : ArbolAVL)
  (x_min x_max y_min y_max : Z) : option (list Obstaculo.t) :=
  _buscar_rango_recursivo_comb n (raiz self) x_min x_max y_min y_max [].

Fixpoint _recorrido_inorder_recursivo_comb (n : nat) (nodo : NodoAVL)
  (resultado : list Obstaculo.t) : option (list Obstaculo.t) :=
  match n with
  | O => None
  | S n =>
      match nodo with
      | Ninguno => Some resultado
      | Nodo o l r _ =>
          resultado <~ _recorrido_inorder_recursivo_comb n l resultado ;;
          let resultado := resultado ++ [o] in
          _recorrido_inorder_recursivo_comb n r resultado
      end
  end.

Definition recorrido_en_profundidad_comb (n : nat) (self : ArbolAVL)
  : option (list Obstaculo.t) :=
  _recorrido_inorder_recursivo_comb n (raiz self) [].

(** [if hijo: cola.append(hijo)] *)
Definition encolar (hijo : NodoAVL) (cola : list NodoAVL) : list NodoAVL :=
  if es_nodo hijo then cola ++ [hijo] else cola.

(** The [while cola:] loop of [recorrido_en_anchura]: [cola.pop(0)] takes
    the head, children that exist are appended at the back.  Testing an
    empty queue ends the loop; each iteration uses one unit. *)
Fixpoint anchura_bucle (n : nat) (cola : list NodoAVL)
  (resultado : list Obstaculo.t) : option (salida (list Obstaculo.t)) :=
  match cola with
  | [] => Some (Ok resultado)
  | nodo :: cola =>
      match n with
      | O => None
      | S n =>
          match nodo with
          | Ninguno => Some AttributeError
          | Nodo o l r _ =>
              let resultado := resultado ++ [o] in
              let cola := encolar l cola in
              let cola := encolar r cola in
              anchura_bucle n cola resultado
          end
      end
  end.

Definition recorrido_en_anchura_comb (n : nat) (self : ArbolAVL)
  : option (salida (list Obstaculo.t)) :=
  match raiz self with
  | Ninguno => Some (Ok [])
  | Nodo _ _ _ _ => anchura_bucle n [raiz self] []
  end.

(** ** Sequences of client calls *)

Inductive llamada : Type :=
| Insertar (obstaculo : Obstaculo.t)
| Eliminar (obstaculo : Obstaculo.t).

Definition ejecutar_llamada (self : ArbolAVL) (c : llamada)
  : salida (bool * ArbolAVL) :=
  match c with
  | Insertar o => insertar self o
  | Eliminar o => eliminar self o
  end.

(** Runs the calls in order and records each call together with the boolean
    it returned. *)
Fixpoint ejecutar (self : ArbolAVL) (cs : list llamada)
  : salida (list (llamada * bool) * ArbolAVL) :=
  match cs with
  | [] => Ok ([], self)
  | c :: cs' =>
      p <- ejecutar_llamada self c ;;
      q <- ejecutar (snd p) cs' ;;
      Ok ((c, fst p) :: fst q, snd q)
  end.

(** Trees obtained from the empty tree by [insertar] and [eliminar]. *)
Inductive alcanzable : ArbolAVL -> Prop :=
| alc_init : alcanzable ArbolAVL_init
| alc_llamada : forall self c b self',
    alcanzable self ->
    ejecutar_llamada self c = Ok (b, self') ->
    alcanzable self'.

(** ** Specification vocabulary *)

(** Entries of a subtree, left to right. *)
Fixpoint inorden (nodo : NodoAVL) : list Obstaculo.t :=
  match nodo with
  | Ninguno => []
  | Nodo o l r _ => inorden l ++ o :: inorden r
  end.

(** Number of nodes. *)
Fixpoint tamano (nodo : NodoAVL) : nat :=
  match nodo with
  | Ninguno => O
  | Nodo _ l r _ => S (tamano l + tamano r)
  end.

(** Nodes still to be visited by the breadth-first loop. *)
Fixpoint peso (cola : list NodoAVL) : nat :=
  match cola with
  | [] => O
  | nodo :: cola' => (tamano nodo + peso cola')%nat
  end.

(** Height computed from the shape, ignoring the stored [altura] fields. *)
Fixpoint altura_real (nodo : NodoAVL) : Z :=
  match nodo with
  | Ninguno => 0
  | Nodo _ l r _ => 1 + Z.max (altura_real l) (altura_real r)
  end.

(** Strict lexicographic order on the coordinate pair. *)
Definition menor (p q : Obstaculo.t) : Prop :=
  Obstaculo.x p < Obstaculo.x q
  \/ (Obstaculo.x p = Obstaculo.x q /\ Obstaculo.y p < Obstaculo.y q).

Definition menorb (p q : Obstaculo.t) : bool :=
  (Obstaculo.x p <? Obstaculo.x q)
  || ((Obstaculo.x p =? Obstaculo.x q) && (Obstaculo.y p <? Obstaculo.y q)).

(** Each element is strictly below the next one. *)
Fixpoint ascendente (l : list Obstaculo.t) : bool :=
  match l with
  | [] => true
  | p :: l' =>
      match l' with
      | [] => true
      | q :: _ => menorb p q && ascendente l'
      end
  end.

(** Ordering invariant of the tree. *)
Definition ordenado (nodo : NodoAVL) : Prop :=
  StronglySorted menor (inorden nodo).

(** Some stored entry has the coordinates of [o]. *)
Definition presente (o : Obstaculo.t) (nodo : NodoAVL) : bool :=
  existsb (fun p => es_igual_a p o) (inorden nodo).

(** Every stored [altura] is the value [actualizar_altura] computes from
    the children: the data model's definition of the height attribute. *)
Fixpoint alturas_ok (nodo : NodoAVL) : Prop :=
  match nodo with
  | Ninguno => True
  | Nodo _ l r h =>
      alturas_ok l /\ alturas_ok r
      /\ h = 1 + Z.max (obtener_altura l) (obtener_altura r)
  end.

(** AVL invariant on the stored heights: every [altura] field is the one
    [actualizar_altura] would compute and every balance factor is within
    one. *)
Fixpoint avl (nodo : NodoAVL) : Prop :=
  match nodo with
  | Ninguno => True
  | Nodo _ l r h =>
      avl l /\ avl r
      /\ h = 1 + Z.max (obtener_altura l) (obtener_altura r)
      /\ -1 <= obtener_altura l - obtener_altura r <= 1
  end.

(** [n] is a node of the tree rooted at [nodo]. *)
Fixpoint es_subarbol (n nodo : NodoAVL) : Prop :=
  match nodo with
  | Ninguno => False
  | Nodo _ l r _ => n = nodo \/ es_subarbol n l \/ es_subarbol n r
  end.

(** Sorted-list counterparts of insertion and deletion. *)
Fixpoint insertar_lista (o : Obstaculo.t) (l : list Obstaculo.t)
  : list Obstaculo.t :=
  match l with
  | [] => [o]
  | p :: l' => if es_mayor_que p o then o :: l else p :: insertar_lista o l'
  end.

Definition quitar (o : Obstaculo.t) (l : list Obstaculo.t)
  : list Obstaculo.t :=
  filter (fun p => negb (es_igual_a p o)) l.

(** [recorrido_en_anchura]: the loop run with one unit per node of the
    tree, which is always enough (see [anchura_bucle_total]). *)
Definition recorrido_en_anchura (self : ArbolAVL) : list Obstaculo.t :=
  match recorrido_en_anchura_comb (tamano (raiz self)) self with
  | Some (Ok visitados) => visitados
  | _ => []
  end.

(** State invariant: ordered, balanced with exact stored heights, and a
    counter that agrees with the number of stored entries. *)
Definition invariante (self : ArbolAVL) : Prop :=
  ordenado (raiz self) /\ avl (raiz self)
  /\ total_obstaculos self = Z.of_nat (length (inorden (raiz self))).

(** Successful insertions and deletions recorded in a log. *)
Fixpoint exitos_insertar (registro : list (llamada * bool)) : Z :=
  match registro with
  | [] => 0
  | (Insertar _, true) :: registro' => 1 + exitos_insertar registro'
  | _ :: registro' => exitos_insertar registro'
  end.

Fixpoint exitos_eliminar (registro : list (llamada * bool)) : Z :=
  match registro with
  | [] => 0
  | (Eliminar _, true) :: registro' => 1 + exitos_eliminar registro'
  | _ :: registro' => exitos_eliminar registro'
  end.

(** An entry at (x, y) whose category and dimensions are given by
    arbitrary functions of the coordinates, built by [Obstaculo.__init__]. *)
Definition entrada (tipo : Z -> Z -> Obstaculo.TipoObstaculo)
  (ancho alto : Z -> Z -> Z) (x y : Z) : Obstaculo.t :=
  Obstaculo.init x y (tipo x y) (ancho x y) (alto x y).

(** A small tree used to instantiate the general statements: (2,0) at the
    root, (1,0) and (3,0) below it, all rocks of the default size. *)
Definition roca (x y : Z) : Obstaculo.t :=
  Obstaculo.init x y Obstaculo.ROCA 30 30.

Definition arbol_ejemplo : ArbolAVL :=
  mkArbol
    (Nodo (roca 2 0)
       (Nodo (roca 1 0) Ninguno Ninguno 1)
       (Nodo (roca 3 0) Ninguno Ninguno 1) 2)
    3.

(** ** The order on coordinate pairs *)

Section Orden.

Lemma es_mayor_que_menor p o : es_mayor_que p o = true <-> menor o p.
Proof.
  unfold es_mayor_que, menor.
  destruct (Z.gtb_spec (Obstaculo.x p) (Obstaculo.x o)).
  - split; [intros _; left; lia | reflexivity].
  - destruct (Z.eqb_spec (Obstaculo.x p) (Obstaculo.x o)).
    + rewrite Z.gtb_ltb, Z.ltb_lt. split; [intros; right; lia | intros [?|[_ ?]]; lia].
    + split; [discriminate | lia].
Qed.

Lemma es_mayor_que_false p o :
  es_mayor_que p o = false <-> ~ menor o p.
Proof.
  rewrite <- es_mayor_que_menor. destruct (es_mayor_que p o); split; congruence.
Qed.

Lemma es_igual_a_iff p o :
  es_igual_a p o = true
  <-> Obstaculo.x p = Obstaculo.x o /\ Obstaculo.y p = Obstaculo.y o.
Proof.
  unfold es_igual_a. rewrite andb_true_iff, !Z.eqb_eq. reflexivity.
Qed.

Lemma es_igual_a_false p o :
  es_igual_a p o = false
  <-> ~ (Obstaculo.x p = Obstaculo.x o /\ Obstaculo.y p = Obstaculo.y o).
Proof.
  rewrite <- es_igual_a_iff. destruct (es_igual_a p o); split; congruence.
Qed.

Lemma menorb_iff p q : menorb p q = true <-> menor p q.
Proof.
  unfold menorb, menor.
  rewrite orb_true_iff, andb_true_iff, !Z.ltb_lt, Z.eqb_eq. reflexivity.
Qed.

Lemma menor_trans p q s : menor p q -> menor q s -> menor p s.
Proof. unfold menor. lia. Qed.

Lemma menor_irrefl p : ~ menor p p.
Proof. unfold menor. lia. Qed.

Lemma menor_no_igual p o : menor p o -> es_igual_a p o = false.
Proof. rewrite es_igual_a_false. unfold menor. lia. Qed.

Lemma menor_no_igual' p o : menor o p -> es_igual_a p o = false.
Proof. rewrite es_igual_a_false. unfold menor. lia. Qed.

(** The three outcomes of the comparisons made while descending. *)
Lemma tricotomia p o :
  es_igual_a p o = false -> es_mayor_que p o = false -> menor p o.
Proof.
  rewrite es_igual_a_false, es_mayor_que_false. unfold menor. lia.
Qed.

(** Comparisons only look at the coordinates. *)
Lemma es_igual_a_coordenadas p o o' :
  Obstaculo.x o = Obstaculo.x o' -> Obstaculo.y o = Obstaculo.y o' ->
  es_igual_a p o = es_igual_a p o'.
Proof. unfold es_igual_a. intros -> ->. reflexivity. Qed.

Lemma es_mayor_que_coordenadas p o o' :
  Obstaculo.x o = Obstaculo.x o' -> Obstaculo.y o = Obstaculo.y o' ->
  es_mayor_que p o = es_mayor_que p o'.
Proof. unfold es_mayor_que. intros -> ->. reflexivity. Qed.

End Orden.

(** ** Strictly ascending lists *)

Section ListasOrdenadas.

Lemma ss_app_iff (l1 l2 : list Obstaculo.t) a :
  StronglySorted menor (l1 ++ a :: l2)
  <-> StronglySorted menor l1 /\ StronglySorted menor l2
      /\ Forall (fun p => menor p a) l1 /\ Forall (menor a) l2.
Proof.
  induction l1 as [|b l1 IH]; simpl.
  - split.
    + intros H. inversion H; subst. repeat split; auto; constructor.
    + intros (_ & H2 & _ & H4). constructor; assumption.
  - split.
    + intros H. inversion H as [|? ? Hs Hf]; subst.
      apply IH in Hs. destruct Hs as (S1 & S2 & F1 & F2).
      rewrite Forall_app in Hf. destruct Hf as [Hf1 Hf2].
      inversion Hf2; subst.
      repeat split; auto; constructor; auto.
    + intros (S1 & S2 & F1 & F2).
      inversion S1; subst. inversion F1; subst.
      constructor.
      * apply IH. repeat split; auto.
      * rewrite Forall_app. split; [assumption|].
        constructor; [assumption|].
        eapply Forall_impl; [|exact F2].
        intros q Hq. eapply menor_trans; eassumption.
Qed.

Lemma ss_ascendente l : StronglySorted menor l -> ascendente l = true.
Proof.
  induction 1 as [|p l Hs IH Hf]; [reflexivity|].
  destruct l as [|q l']; [reflexivity|].
  change (menorb p q && ascendente (q :: l') = true).
  rewrite IH, andb_true_r. apply menorb_iff.
  inversion Hf; assumption.
Qed.

Lemma ascendente_ss l : ascendente l = true -> StronglySorted menor l.
Proof.
  induction l as [|p l IH]; [constructor|].
  destruct l as [|q l'].
  - intros _. repeat constructor.
  - intros H. change (menorb p q && ascendente (q :: l') = true) in H.
    apply andb_true_iff in H. destruct H as [Hpq Hl].
    apply menorb_iff in Hpq. specialize (IH Hl).
    constructor; [assumption|].
    constructor; [assumption|].
    inversion IH; subst.
    eapply Forall_impl; [|eassumption].
    intros s Hs. eapply menor_trans; eassumption.
Qed.

Lemma quitar_app o l1 l2 : quitar o (l1 ++ l2) = quitar o l1 ++ quitar o l2.
Proof. apply filter_app. Qed.

Lemma quitar_todos_mayores o l :
  Forall (menor o) l -> quitar o l = l.
Proof.
  induction 1 as [|p l Hp _ IH]; [reflexivity|].
  unfold quitar in *. simpl. rewrite (menor_no_igual' _ _ Hp). simpl.
  now rewrite IH.
Qed.

Lemma quitar_todos_menores o l :
  Forall (fun p => menor p o) l -> quitar o l = l.
Proof.
  induction 1 as [|p l Hp _ IH]; [reflexivity|].
  unfold quitar in *. simpl. rewrite (menor_no_igual _ _ Hp). simpl.
  now rewrite IH.
Qed.

Lemma quitar_ausente o l :
  existsb (fun p => es_igual_a p o) l = false -> quitar o l = l.
Proof.
  induction l as [|p l IH]; [reflexivity|].
  simpl. intros H. apply orb_false_iff in H. destruct H as [Hp Hl].
  unfold quitar in *. simpl. rewrite Hp. simpl. now rewrite IH.
Qed.

Lemma ss_quitar o l : StronglySorted menor l -> StronglySorted menor (quitar o l).
Proof.
  induction 1 as [|p l Hs IH Hf]; [constructor|].
  unfold quitar in *. simpl.
  destruct (es_igual_a p o); simpl; [assumption|].
  constructor; [assumption|].
  rewrite Forall_forall in *. intros q Hq.
  apply filter_In in Hq. apply Hf, Hq.
Qed.

Lemma insertar_lista_app_izq o l1 a l2 :
  es_mayor_que a o = true ->
  insertar_lista o (l1 ++ a :: l2) = insertar_lista o l1 ++ a :: l2.
Proof.
  intros Ha. induction l1 as [|p l1 IH]; simpl.
  - now rewrite Ha.
  - destruct (es_mayor_que p o); [reflexivity|]. now rewrite IH.
Qed.

Lemma insertar_lista_app_der o l1 a l2 :
  Forall (fun p => es_mayor_que p o = false) l1 ->
  es_mayor_que a o = false ->
  insertar_lista o (l1 ++ a :: l2) = l1 ++ a :: insertar_lista o l2.
Proof.
  intros Hl Ha. induction Hl as [|p l1 Hp _ IH]; simpl.
  - now rewrite Ha.
  - rewrite Hp. now rewrite IH.
Qed.

Lemma insertar_lista_length o l :
  length (insertar_lista o l) = S (length l).
Proof.
  induction l as [|p l IH]; simpl; [reflexivity|].
  destruct (es_mayor_que p o); simpl; [reflexivity|]. now rewrite IH.
Qed.

Lemma insertar_lista_In o l q :
  In q (insertar_lista o l) <-> q = o \/ In q l.
Proof.
  induction l as [|p l IH]; simpl.
  - intuition.
  - destruct (es_mayor_que p o); simpl; [intuition|].
    rewrite IH. intuition.
Qed.

Lemma ss_insertar_lista o l :
  StronglySorted menor l ->
  existsb (fun p => es_igual_a p o) l = false ->
  StronglySorted menor (insertar_lista o l).
Proof.
  induction 1 as [|p l Hs IH Hf]; simpl; intros Hex.
  - repeat constructor.
  - apply orb_false_iff in Hex. destruct Hex as [Hp Hl].
    destruct (es_mayor_que p o) eqn:Hm.
    + apply es_mayor_que_menor in Hm.
      constructor; [constructor; assumption|].
      constructor; [assumption|].
      eapply Forall_impl; [|exact Hf].
      intros q Hq. eapply menor_trans; eassumption.
    + constructor; [auto|].
      rewrite Forall_forall in *. intros q Hq.
      apply insertar_lista_In in Hq. destruct Hq as [->|Hq]; [|auto].
      apply tricotomia; assumption.
Qed.

Lemma existsb_igual_coordenadas o o' l :
  Obstaculo.x o = Obstaculo.x o' -> Obstaculo.y o = Obstaculo.y o' ->
  existsb (fun p => es_igual_a p o) l = existsb (fun p => es_igual_a p o') l.
Proof.
  intros Hx Hy. induction l as [|p l IH]; simpl; [reflexivity|].
  now rewrite IH, (es_igual_a_coordenadas p o o' Hx Hy).
Qed.

(** Removing the key just inserted gives the list back. *)
Lemma quitar_insertar_lista o o' l :
  Obstaculo.x o = Obstaculo.x o' -> Obstaculo.y o = Obstaculo.y o' ->
  existsb (fun p => es_igual_a p o) l = false ->
  quitar o' (insertar_lista o l) = l.
Proof.
  intros Hx Hy Hex.
  assert (Ho : es_igual_a o o' = true) by (apply es_igual_a_iff; auto).
  assert (Hex' : existsb (fun p => es_igual_a p o') l = false).
  { rewrite <- Hex. symmetry.
    apply existsb_igual_coordenadas; assumption. }
  clear Hex. induction l as [|p l IH]; simpl.
  - unfold quitar. simpl. now rewrite Ho.
  - simpl in Hex'. apply orb_false_iff in Hex'. destruct Hex' as [Hp Hl].
    destruct (es_mayor_que p o).
    + unfold quitar. simpl. rewrite Ho, Hp. simpl.
      f_equal. apply (quitar_ausente o' l Hl).
    + unfold quitar in *. simpl. rewrite Hp. simpl. f_equal. auto.
Qed.

(** Two entries of a strictly ascending list with the same coordinates
    are the same entry. *)
Lemma ss_igual_unico q l p p' :
  StronglySorted menor l -> In p l -> In p' l ->
  es_igual_a p q = true -> es_igual_a p' q = true -> p = p'.
Proof.
  intros Hs Hp Hp' Heq Heq'.
  apply es_igual_a_iff in Heq. apply es_igual_a_iff in Heq'.
  induction Hs as [|a l Hs IH Hf]; [contradiction|].
  rewrite Forall_forall in Hf.
  destruct Hp as [Hp|Hp], Hp' as [Hp'|Hp'].
  - congruence.
  - subst a. specialize (Hf _ Hp'). unfold menor in Hf. lia.
  - subst a. specialize (Hf _ Hp). unfold menor in Hf. lia.
  - auto.
Qed.

(** In a strictly ascending list a present key occurs exactly once. *)
Lemma quitar_length o l :
  StronglySorted menor l ->
  existsb (fun p => es_igual_a p o) l = true ->
  S (length (quitar o l)) = length l.
Proof.
  induction 1 as [|p l Hs IH Hf]; simpl; [discriminate|].
  intros Hex. unfold quitar in *. simpl.
  destruct (es_igual_a p o) eqn:Hp; simpl.
  - f_equal. f_equal. apply (quitar_todos_mayores o l).
    eapply Forall_impl; [|exact Hf].
    apply es_igual_a_iff in Hp. unfold menor. intros q. lia.
  - f_equal. auto.
Qed.

End ListasOrdenadas.

(** ** Traversals and rotations *)

Section Recorridos.

Lemma _recorrido_inorder_recursivo_spec nodo resultado :
  _recorrido_inorder_recursivo nodo resultado = resultado ++ inorden nodo.
Proof.
  revert resultado. induction nodo as [|o l IHl r IHr h]; intros acc; simpl.
  - now rewrite app_nil_r.
  - rewrite IHr, IHl, <- !app_assoc. reflexivity.
Qed.

Lemma recorrido_en_profundidad_inorden self :
  recorrido_en_profundidad self = inorden (raiz self).
Proof. apply _recorrido_inorder_recursivo_spec. Qed.

Lemma inorden_length nodo : length (inorden nodo) = tamano nodo.
Proof.
  induction nodo as [|o l IHl r IHr h]; simpl; [reflexivity|].
  rewrite length_app. simpl. lia.
Qed.

Lemma inorden_rotar_derecha nodo nodo' :
  rotar_derecha nodo = Ok nodo' -> inorden nodo' = inorden nodo.
Proof.
  destruct nodo as [|o [|ol ll lr hl] r h]; simpl; try discriminate.
  intros [= <-]. simpl. now rewrite <- app_assoc.
Qed.

Lemma inorden_rotar_izquierda nodo nodo' :
  rotar_izquierda nodo = Ok nodo' -> inorden nodo' = inorden nodo.
Proof.
  destruct nodo as [|o l [|or rl rr hr] h]; simpl; try discriminate.
  intros [= <-]. simpl. now rewrite <- app_assoc.
Qed.

Lemma inorden_balancear nodo nodo' :
  balancear nodo = Ok nodo' -> inorden nodo' = inorden nodo.
Proof.
  destruct nodo as [|o l r h]; [discriminate|].
  unfold balancear.
  destruct (_ && _ && _).
  { apply inorden_rotar_derecha. }
  destruct (_ && _ && _).
  { apply inorden_rotar_izquierda. }
  destruct (_ && _ && _).
  { destruct (rotar_izquierda l) as [l'|] eqn:Hl; [|discriminate].
    intros H. apply inorden_rotar_derecha in H. rewrite H. simpl.
    now rewrite (inorden_rotar_izquierda _ _ Hl). }
  destruct (_ && _ && _).
  { destruct (rotar_derecha r) as [r'|] eqn:Hr; [|discriminate].
    intros H. apply inorden_rotar_izquierda in H. rewrite H. simpl.
    now rewrite (inorden_rotar_derecha _ _ Hr). }
  now intros [= <-].
Qed.

Lemma inorden_balancear_nodo o l r h nodo' :
  balancear (Nodo o l r h) = Ok nodo' ->
  inorden nodo' = inorden l ++ o :: inorden r.
Proof. intros H. apply inorden_balancear in H. exact H. Qed.

End Recorridos.

(** ** The ordering invariant *)

Section Ordenado.

Lemma ordenado_nodo o l r h :
  ordenado (Nodo o l r h)
  <-> ordenado l /\ ordenado r
      /\ Forall (fun p => menor p o) (inorden l)
      /\ Forall (menor o) (inorden r).
Proof. apply ss_app_iff. Qed.

Lemma ausente_mayores o l :
  Forall (menor o) l -> existsb (fun p => es_igual_a p o) l = false.
Proof.
  induction 1 as [|p l Hp _ IH]; simpl; [reflexivity|].
  now rewrite (menor_no_igual' _ _ Hp), IH.
Qed.

Lemma ausente_menores o l :
  Forall (fun p => menor p o) l ->
  existsb (fun p => es_igual_a p o) l = false.
Proof.
  induction 1 as [|p l Hp _ IH]; simpl; [reflexivity|].
  now rewrite (menor_no_igual _ _ Hp), IH.
Qed.

Lemma presente_nodo q o l r h :
  presente q (Nodo o l r h) = presente q l || (es_igual_a o q || presente q r).
Proof. unfold presente. simpl. now rewrite existsb_app. Qed.

Lemma Forall_menor_trans_izq o q l :
  menor q o -> Forall (menor o) l -> Forall (menor q) l.
Proof.
  intros Hq. apply Forall_impl. intros p. now apply menor_trans.
Qed.

Lemma Forall_menor_trans_der o q l :
  menor o q -> Forall (fun p => menor p o) l -> Forall (fun p => menor p q) l.
Proof.
  intros Hq. apply Forall_impl. intros p Hp. eapply menor_trans; eassumption.
Qed.

(** On an ordered tree the descent of [_buscar_obstaculo] finds a key
    exactly when it is stored. *)
Lemma _buscar_obstaculo_presente nodo q :
  ordenado nodo -> es_nodo (_buscar_obstaculo nodo q) = presente q nodo.
Proof.
  induction nodo as [|o l IHl r IHr h]; [reflexivity|].
  intros Hord. apply ordenado_nodo in Hord.
  destruct Hord as (Hl & Hr & Fl & Fr).
  rewrite presente_nodo. simpl.
  destruct (es_igual_a o q) eqn:Heq.
  - simpl. now rewrite orb_true_r.
  - destruct (es_mayor_que o q) eqn:Hm.
    + rewrite (IHl Hl). apply es_mayor_que_menor in Hm.
      unfold presente.
      rewrite (ausente_mayores q (inorden r)); [now rewrite !orb_false_r|].
      eapply Forall_menor_trans_izq; eassumption.
    + rewrite (IHr Hr).
      pose proof (tricotomia _ _ Heq Hm) as Hlt.
      unfold presente.
      rewrite (ausente_menores q (inorden l)); [reflexivity|].
      eapply Forall_menor_trans_der; eassumption.
Qed.

(** Whatever [_buscar_obstaculo] returns is a node of the tree whose
    entry has the coordinates asked for. *)
Lemma _buscar_obstaculo_nodo nodo q p l r h :
  _buscar_obstaculo nodo q = Nodo p l r h ->
  es_igual_a p q = true /\ In p (inorden nodo)
  /\ es_subarbol (Nodo p l r h) nodo.
Proof.
  induction nodo as [|o l0 IHl r0 IHr h0]; simpl; [discriminate|].
  destruct (es_igual_a o q) eqn:Heq.
  - intros [= -> -> -> ->]. repeat split; auto.
    apply in_or_app. right. now left.
  - destruct (es_mayor_que o q); intros H.
    + destruct (IHl H) as (? & ? & ?). repeat split; auto.
      apply in_or_app. now left.
    + destruct (IHr H) as (? & ? & ?). repeat split; auto.
      apply in_or_app. right. now right.
Qed.

(** On an ordered tree the stored entry with the coordinates of [q] is the
    one [_buscar_obstaculo] returns. *)
Lemma _buscar_obstaculo_encuentra nodo p q :
  ordenado nodo -> In p (inorden nodo) -> es_igual_a p q = true ->
  exists l r h, _buscar_obstaculo nodo q = Nodo p l r h.
Proof.
  intros Hord Hin Heq.
  assert (Hpres : presente q nodo = true).
  { apply existsb_exists. now exists p. }
  rewrite <- _buscar_obstaculo_presente in Hpres by assumption.
  destruct (_buscar_obstaculo nodo q) as [|p' l r h] eqn:Hb; [discriminate|].
  destruct (_buscar_obstaculo_nodo _ _ _ _ _ _ Hb) as (Heq' & Hin' & _).
  rewrite (ss_igual_unico q (inorden nodo) p' p Hord Hin' Hin Heq' Heq).
  eauto.
Qed.

Lemma inorden__insertar_recursivo nodo q nodo' :
  ordenado nodo ->
  _insertar_recursivo nodo q = Ok nodo' ->
  inorden nodo' = insertar_lista q (inorden nodo).
Proof.
  revert nodo'. induction nodo as [|o l IHl r IHr h]; intros nodo' Hord.
  - simpl. now intros [= <-].
  - apply ordenado_nodo in Hord. destruct Hord as (Hl & Hr & Fl & Fr).
    simpl. destruct (es_mayor_que o q) eqn:Hm.
    + destruct (_insertar_recursivo l q) as [l'|] eqn:Hi; [|discriminate].
      intros Hb. apply inorden_balancear_nodo in Hb. rewrite Hb.
      rewrite (IHl _ Hl eq_refl).
      symmetry. now apply insertar_lista_app_izq.
    + destruct (_insertar_recursivo r q) as [r'|] eqn:Hi; [|discriminate].
      intros Hb. apply inorden_balancear_nodo in Hb. rewrite Hb.
      rewrite (IHr _ Hr eq_refl).
      symmetry. apply insertar_lista_app_der; [|assumption].
      eapply Forall_impl; [|exact Fl].
      intros p Hp. apply es_mayor_que_false. intros Hqp.
      apply es_mayor_que_false in Hm. apply Hm.
      eapply menor_trans; eassumption.
Qed.

(** The node [_encontrar_minimo] returns holds the first entry of the
    in-order sequence. *)
Lemma _encontrar_minimo_primero nodo :
  es_nodo nodo = true ->
  exists o' l' r' h' resto,
    _encontrar_minimo nodo = Ok (Nodo o' l' r' h')
    /\ inorden nodo = o' :: resto.
Proof.
  induction nodo as [|o l IHl r _ h]; [discriminate|].
  intros _. destruct l as [|ol ll lr hl].
  - simpl. eauto 8.
  - destruct (IHl eq_refl) as (o' & l' & r' & h' & resto & Hm & Hi).
    exists o', l', r', h', (resto ++ o :: inorden r).
    split; [exact Hm|].
    change (inorden (Nodo o (Nodo ol ll lr hl) r h))
      with (inorden (Nodo ol ll lr hl) ++ o :: inorden r).
    now rewrite Hi.
Qed.

Lemma inorden__eliminar_recursivo nodo q nodo' :
  ordenado nodo ->
  _eliminar_recursivo nodo q = Ok nodo' ->
  inorden nodo' = quitar q (inorden nodo).
Proof.
  revert q nodo'. induction nodo as [|o l IHl r IHr h]; intros q nodo' Hord.
  - simpl. now intros [= <-].
  - apply ordenado_nodo in Hord. destruct Hord as (Hl & Hr & Fl & Fr).
    change (inorden (Nodo o l r h)) with (inorden l ++ o :: inorden r).
    change (o :: inorden r) with ([o] ++ inorden r).
    rewrite !quitar_app.
    cbn [_eliminar_recursivo actualizar_altura].
    destruct (es_igual_a o q) eqn:Heq.
    + (* the node itself is deleted *)
      assert (Hql : quitar q (inorden l) = inorden l).
      { apply quitar_todos_menores. eapply Forall_impl; [|exact Fl].
        apply es_igual_a_iff in Heq. unfold menor. intros p. lia. }
      assert (Hqr : quitar q (inorden r) = inorden r).
      { apply quitar_todos_mayores. eapply Forall_impl; [|exact Fr].
        apply es_igual_a_iff in Heq. unfold menor. intros p. lia. }
      assert (Hqo : quitar q [o] = []).
      { unfold quitar. simpl. now rewrite Heq. }
      rewrite Hql, Hqr, Hqo. simpl.
      destruct l as [|ol ll lr hl], r as [|or rl rr hr].
      * now intros [= <-].
      * now intros [= <-].
      * intros [= <-]. now rewrite app_nil_r.
      * destruct (_encontrar_minimo_primero (Nodo or rl rr hr) eq_refl)
          as (o' & l' & r' & h' & resto & Hm & Hi).
        rewrite Hm. cbn [attr_obstaculo].
        destruct (_eliminar_recursivo (Nodo or rl rr hr) o')
          as [r2|] eqn:Hd; [|discriminate].
        intros Hb. apply inorden_balancear_nodo in Hb. rewrite Hb.
        rewrite (IHr _ _ Hr Hd), Hi.
        f_equal. unfold ordenado in Hr. rewrite Hi in Hr.
        inversion Hr; subst.
        unfold quitar. simpl.
        assert (Hoo : es_igual_a o' o' = true)
          by (apply es_igual_a_iff; auto).
        rewrite Hoo. simpl. f_equal.
        now apply (quitar_todos_mayores o' resto).
    + assert (Hqo : quitar q [o] = [o]).
      { unfold quitar. simpl. now rewrite Heq. }
      rewrite Hqo.
      destruct (es_mayor_que o q) eqn:Hm.
      * destruct (_eliminar_recursivo l q) as [l'|] eqn:Hd; [|discriminate].
        intros Hb. apply inorden_balancear_nodo in Hb. rewrite Hb.
        rewrite (IHl _ _ Hl Hd). f_equal. simpl. f_equal.
        symmetry. apply quitar_todos_mayores.
        apply es_mayor_que_menor in Hm.
        eapply Forall_menor_trans_izq; eassumption.
      * destruct (_eliminar_recursivo r q) as [r'|] eqn:Hd; [|discriminate].
        intros Hb. apply inorden_balancear_nodo in Hb. rewrite Hb.
        rewrite (IHr _ _ Hr Hd). f_equal.
        symmetry. apply quitar_todos_menores.
        pose proof (tricotomia _ _ Heq Hm).
        eapply Forall_menor_trans_der; eassumption.
Qed.

End Ordenado.

(** ** Consistent heights: no rotation fails *)

Section Alturas.

Lemma alturas_ok_no_negativa nodo :
  alturas_ok nodo -> 0 <= obtener_altura nodo.
Proof.
  induction nodo as [|o l IHl r IHr h]; cbn [alturas_ok obtener_altura];
    [lia|].
  intros (Hl & Hr & ->). specialize (IHl Hl). lia.
Qed.

Lemma avl_alturas_ok nodo : avl nodo -> alturas_ok nodo.
Proof.
  induction nodo as [|o l IHl r IHr h]; cbn [avl alturas_ok]; [trivial|].
  intros (Hl & Hr & Hh & _). auto.
Qed.

Lemma rotar_derecha_alturas_ok o ol ll lr hl r h :
  alturas_ok (Nodo ol ll lr hl) -> alturas_ok r ->
  exists nodo',
    rotar_derecha (Nodo o (Nodo ol ll lr hl) r h) = Ok nodo'
    /\ alturas_ok nodo' /\ es_nodo nodo' = true.
Proof.
  intros (Hll & Hlr & _) Hr. eexists. split; [reflexivity|].
  cbn [alturas_ok actualizar_altura obtener_altura es_nodo].
  repeat split; auto.
Qed.

Lemma rotar_izquierda_alturas_ok o l or rl rr hr h :
  alturas_ok l -> alturas_ok (Nodo or rl rr hr) ->
  exists nodo',
    rotar_izquierda (Nodo o l (Nodo or rl rr hr) h) = Ok nodo'
    /\ alturas_ok nodo' /\ es_nodo nodo' = true.
Proof.
  intros Hl (Hrl & Hrr & _). eexists. split; [reflexivity|].
  cbn [alturas_ok actualizar_altura obtener_altura es_nodo].
  repeat split; auto.
Qed.

(** With consistent stored heights [balancear] never dereferences [None]:
    a child whose balance factor is non-zero has the grandchild that the
    double rotation needs. *)
Lemma balancear_alturas_ok o l r :
  alturas_ok l -> alturas_ok r ->
  exists nodo',
    balancear (Nodo o l r (1 + Z.max (obtener_altura l) (obtener_altura r)))
    = Ok nodo'
    /\ alturas_ok nodo' /\ es_nodo nodo' = true.
Proof.
  intros Hl Hr. unfold balancear.
  match goal with
  | |- exists _, (if ?c then _ else _) = _ /\ _ => destruct c eqn:C1
  end.
  { apply andb_true_iff in C1. destruct C1 as [C1 _].
    apply andb_true_iff in C1. destruct C1 as [_ C1].
    destruct l as [|ol ll lr hl]; [discriminate|].
    now apply rotar_derecha_alturas_ok. }
  match goal with
  | |- exists _, (if ?c then _ else _) = _ /\ _ => destruct c eqn:C2
  end.
  { apply andb_true_iff in C2. destruct C2 as [C2 _].
    apply andb_true_iff in C2. destruct C2 as [_ C2].
    destruct r as [|or rl rr hr]; [discriminate|].
    now apply rotar_izquierda_alturas_ok. }
  match goal with
  | |- exists _, (if ?c then _ else _) = _ /\ _ => destruct c eqn:C3
  end.
  { apply andb_true_iff in C3. destruct C3 as [C3 Hneg].
    apply andb_true_iff in C3. destruct C3 as [_ C3].
    destruct l as [|ol ll lr hl]; [discriminate|].
    cbn [obtener_factor_balance] in Hneg. apply Z.ltb_lt in Hneg.
    pose proof Hl as (Hll & Hlr & Hhl).
    pose proof (alturas_ok_no_negativa _ Hll).
    destruct lr as [|olr lrl lrr hlr]; [cbn [obtener_altura] in Hneg; lia|].
    destruct (rotar_izquierda_alturas_ok ol ll olr lrl lrr hlr hl Hll Hlr)
      as (l' & -> & Hl' & Hn').
    destruct l' as [|ol' ll' lr' hl']; [discriminate|].
    now apply rotar_derecha_alturas_ok. }
  match goal with
  | |- exists _, (if ?c then _ else _) = _ /\ _ => destruct c eqn:C4
  end.
  { apply andb_true_iff in C4. destruct C4 as [C4 Hpos].
    apply andb_true_iff in C4. destruct C4 as [_ C4].
    destruct r as [|or rl rr hr]; [discriminate|].
    cbn [obtener_factor_balance] in Hpos. apply Z.gtb_lt in Hpos.
    pose proof Hr as (Hrl & Hrr & Hhr).
    pose proof (alturas_ok_no_negativa _ Hrr).
    destruct rl as [|orl rll rlr hrl]; [cbn [obtener_altura] in Hpos; lia|].
    destruct (rotar_derecha_alturas_ok or orl rll rlr hrl rr hr Hrl Hrr)
      as (r' & -> & Hr' & Hn').
    destruct r' as [|or' rl' rr' hr']; [discriminate|].
    now apply rotar_izquierda_alturas_ok. }
  eexists. split; [reflexivity|].
  cbn [alturas_ok es_nodo]. auto.
Qed.

Lemma _insertar_recursivo_alturas_ok nodo q :
  alturas_ok nodo ->
  exists nodo',
    _insertar_recursivo nodo q = Ok nodo'
    /\ alturas_ok nodo' /\ es_nodo nodo' = true.
Proof.
  induction nodo as [|o l IHl r IHr h].
  - intros _. exists (NodoAVL_init q). cbn. repeat split; lia.
  - intros (Hl & Hr & _).
    cbn [_insertar_recursivo actualizar_altura].
    destruct (es_mayor_que o q).
    + destruct (IHl Hl) as (l' & -> & Hl' & _).
      now apply balancear_alturas_ok.
    + destruct (IHr Hr) as (r' & -> & Hr' & _).
      now apply balancear_alturas_ok.
Qed.

Lemma _eliminar_recursivo_alturas_ok nodo q :
  alturas_ok nodo ->
  exists nodo', _eliminar_recursivo nodo q = Ok nodo' /\ alturas_ok nodo'.
Proof.
  revert q. induction nodo as [|o l IHl r IHr h]; intros q.
  - intros _. exists Ninguno. now split.
  - intros (Hl & Hr & _).
    cbn [_eliminar_recursivo actualizar_altura].
    destruct (es_igual_a o q).
    + destruct l as [|ol ll lr hl], r as [|or rl rr hr].
      * exists Ninguno. now split.
      * eexists. split; [reflexivity|assumption].
      * eexists. split; [reflexivity|assumption].
      * destruct (_encontrar_minimo_primero (Nodo or rl rr hr) eq_refl)
          as (o' & l' & r' & h' & resto & -> & _).
        cbn [attr_obstaculo].
        destruct (IHr o' Hr) as (r2 & -> & Hr2).
        destruct (balancear_alturas_ok o' _ r2 Hl Hr2) as (n' & Hn & Ha & _).
        eauto.
    + destruct (es_mayor_que o q).
      * destruct (IHl q Hl) as (l' & -> & Hl').
        destruct (balancear_alturas_ok o l' r Hl' Hr) as (n' & Hn & Ha & _).
        eauto.
      * destruct (IHr q Hr) as (r' & -> & Hr').
        destruct (balancear_alturas_ok o l r' Hl Hr') as (n' & Hn & Ha & _).
        eauto.
Qed.

End Alturas.

(** ** The balance invariant *)

Section Balance.

Lemma avl_altura_no_negativa nodo : avl nodo -> 0 <= obtener_altura nodo.
Proof.
  induction nodo as [|o l IHl r IHr h]; cbn [avl obtener_altura]; [lia|].
  intros (Hl & Hr & -> & _). specialize (IHl Hl). lia.
Qed.

Lemma avl_altura_real nodo : avl nodo -> obtener_altura nodo = altura_real nodo.
Proof.
  induction nodo as [|o l IHl r IHr h];
    cbn [avl obtener_altura altura_real]; [reflexivity|].
  intros (Hl & Hr & -> & _). now rewrite (IHl Hl), (IHr Hr).
Qed.

Ltac abrir_avl :=
  repeat match goal with
    | H : avl (Nodo _ _ _ _) |- _ =>
        let H1 := fresh "Ha" in let H2 := fresh "Ha" in
        let H3 := fresh "Hh" in let H4 := fresh "Hb" in
        destruct H as (H1 & H2 & H3 & H4);
        pose proof (avl_altura_no_negativa _ H1);
        pose proof (avl_altura_no_negativa _ H2)
    end.

Lemma balancear_avl o l r h :
  avl l -> avl r ->
  h = 1 + Z.max (obtener_altura l) (obtener_altura r) ->
  -2 <= obtener_altura l - obtener_altura r <= 2 ->
  exists nodo',
    balancear (Nodo o l r h) = Ok nodo'
    /\ avl nodo' /\ es_nodo nodo' = true
    /\ h - 1 <= obtener_altura nodo' <= h
    /\ (-1 <= obtener_altura l - obtener_altura r <= 1 ->
        nodo' = Nodo o l r h).
Proof.
  intros Hl Hr Hh Hd.
  pose proof (avl_altura_no_negativa _ Hl) as Pl.
  pose proof (avl_altura_no_negativa _ Hr) as Pr.
  unfold balancear. cbn [obtener_factor_balance].
  destruct (Z.gtb_spec (obtener_altura l - obtener_altura r) 1) as [Hgt|Hgt];
    destruct (Z.ltb_spec (obtener_altura l - obtener_altura r) (-1)) as [Hlt|Hlt];
    try lia; cbn [andb].
  - (* left-heavy *)
    destruct l as [|ol ll lr hl]; [cbn [avl obtener_altura es_nodo actualizar_altura] in *; lia|].
    cbn [es_nodo andb obtener_factor_balance].
    abrir_avl.
    destruct (Z.geb_spec (obtener_altura ll - obtener_altura lr) 0) as [Hge|Hge].
    + eexists. split; [reflexivity|]. cbn [avl obtener_altura es_nodo actualizar_altura] in *. repeat split; auto; try lia.
    + destruct (Z.leb_spec (obtener_factor_balance r) 0);
      cbn [andb]; try rewrite andb_false_r.
      all: destruct (Z.ltb_spec (obtener_altura ll - obtener_altura lr) 0); try lia.
      all: destruct lr as [|olr lrl lrr hlr]; [cbn [avl obtener_altura es_nodo actualizar_altura] in *; lia|].
      all: abrir_avl.
      all: eexists; split; [reflexivity|]; cbn [avl obtener_altura es_nodo actualizar_altura] in *; repeat split; auto; try lia.
  - (* right-heavy *)
    destruct r as [|or rl rr hr];
      [cbn [avl obtener_altura es_nodo actualizar_altura] in *; lia|].
    cbn [es_nodo andb obtener_factor_balance].
    abrir_avl.
    destruct (Z.leb_spec (obtener_altura rl - obtener_altura rr) 0) as [Hle|Hle].
    + eexists. split; [reflexivity|].
      cbn [avl obtener_altura es_nodo actualizar_altura] in *.
      repeat split; auto; try lia.
    + destruct (Z.gtb_spec (obtener_altura rl - obtener_altura rr) 0); try lia.
      destruct rl as [|orl rll rlr hrl];
        [cbn [avl obtener_altura es_nodo actualizar_altura] in *; lia|].
      abrir_avl.
      eexists; split; [reflexivity|].
      cbn [avl obtener_altura es_nodo actualizar_altura] in *.
      repeat split; auto; try lia.
  - (* within bounds: no rotation *)
    eexists. split; [reflexivity|].
    cbn [avl obtener_altura es_nodo]. repeat split; auto; lia.
Qed.

(** Rebalancing a node one of whose subtrees changed height by at most
    one: [hl] and [hr] are the heights of the subtrees before the change. *)
Lemma balancear_tras_cambio o l' r' hl hr :
  avl l' -> avl r' ->
  -1 <= hl - hr <= 1 ->
  (obtener_altura r' = hr /\ hl - 1 <= obtener_altura l' <= hl + 1)
  \/ (obtener_altura l' = hl /\ hr - 1 <= obtener_altura r' <= hr + 1) ->
  exists nodo',
    balancear (Nodo o l' r'
                 (1 + Z.max (obtener_altura l') (obtener_altura r')))
    = Ok nodo'
    /\ avl nodo' /\ es_nodo nodo' = true
    /\ (1 + Z.max hl hr) - 1 <= obtener_altura nodo' <= (1 + Z.max hl hr) + 1.
Proof.
  intros Hl Hr Hb Hc.
  destruct (balancear_avl o l' r' _ Hl Hr eq_refl ltac:(lia))
    as (n' & Hn & Ha & Hs & Hhn & Hid).
  exists n'. repeat split; auto; try lia.
  destruct (Z_le_gt_dec (-1) (obtener_altura l' - obtener_altura r'))
    as [H1|H1];
    [destruct (Z_le_gt_dec (obtener_altura l' - obtener_altura r') 1)
      as [H2|H2]|];
    [rewrite (Hid (conj H1 H2)); cbn [obtener_altura]; lia | lia | lia].
Qed.

Lemma _insertar_recursivo_avl nodo q :
  avl nodo ->
  exists nodo',
    _insertar_recursivo nodo q = Ok nodo'
    /\ avl nodo' /\ es_nodo nodo' = true
    /\ obtener_altura nodo - 1 <= obtener_altura nodo'
                               <= obtener_altura nodo + 1.
Proof.
  induction nodo as [|o l IHl r IHr h].
  - intros _. exists (NodoAVL_init q). cbn. repeat split; lia.
  - intros (Hl & Hr & -> & Hb).
    cbn [_insertar_recursivo actualizar_altura obtener_altura].
    destruct (es_mayor_que o q).
    + destruct (IHl Hl) as (l' & -> & Hl' & _ & Hhl).
      apply balancear_tras_cambio; auto.
    + destruct (IHr Hr) as (r' & -> & Hr' & _ & Hhr).
      apply balancear_tras_cambio; auto.
Qed.

Lemma _eliminar_recursivo_avl nodo q :
  avl nodo ->
  exists nodo',
    _eliminar_recursivo nodo q = Ok nodo'
    /\ avl nodo'
    /\ obtener_altura nodo - 1 <= obtener_altura nodo'
                               <= obtener_altura nodo + 1.
Proof.
  revert q. induction nodo as [|o l IHl r IHr h]; intros q.
  - intros _. exists Ninguno. cbn. repeat split; lia.
  - intros (Hl & Hr & -> & Hb).
    pose proof (avl_altura_no_negativa _ Hl) as Pl.
    pose proof (avl_altura_no_negativa _ Hr) as Pr.
    cbn [_eliminar_recursivo actualizar_altura obtener_altura].
    destruct (es_igual_a o q).
    + destruct l as [|ol ll lr hl], r as [|or rl rr hr].
      * exists Ninguno. cbn in *. repeat split; lia.
      * eexists. split; [reflexivity|]. split; [assumption|].
        cbn [obtener_altura] in *. lia.
      * eexists. split; [reflexivity|]. split; [assumption|].
        cbn [obtener_altura] in *. lia.
      * destruct (_encontrar_minimo_primero (Nodo or rl rr hr) eq_refl)
          as (o' & l' & r' & h' & resto & -> & _).
        cbn [attr_obstaculo].
        destruct (IHr o' Hr) as (r2 & -> & Hr2 & Hhr).
        destruct (balancear_tras_cambio o' (Nodo ol ll lr hl) r2
                    (obtener_altura (Nodo ol ll lr hl))
                    (obtener_altura (Nodo or rl rr hr)) Hl Hr2 Hb)
          as (n' & Hn & Ha & _ & Hh); [right; split; [reflexivity|lia]|].
        exists n'. auto.
    + destruct (es_mayor_que o q).
      * destruct (IHl q Hl) as (l' & -> & Hl' & Hhl).
        destruct (balancear_tras_cambio o l' r
                    (obtener_altura l) (obtener_altura r) Hl' Hr Hb)
          as (n' & Hn & Ha & _ & Hh); [left; split; [reflexivity|lia]|].
        exists n'. auto.
      * destruct (IHr q Hr) as (r' & -> & Hr' & Hhr).
        destruct (balancear_tras_cambio o l r'
                    (obtener_altura l) (obtener_altura r) Hl Hr' Hb)
          as (n' & Hn & Ha & _ & Hh); [right; split; [reflexivity|lia]|].
        exists n'. auto.
Qed.

End Balance.

(** ** The public operations on valid trees *)


Section Operaciones.

Lemma ausente__buscar_obstaculo nodo q :
  presente q nodo = false -> _buscar_obstaculo nodo q = Ninguno.
Proof.
  intros Hp.
  destruct (_buscar_obstaculo nodo q) as [|p l r h] eqn:Hb; [reflexivity|].
  destruct (_buscar_obstaculo_nodo _ _ _ _ _ _ Hb) as (Heq & Hin & _).
  assert (presente q nodo = true) by (apply existsb_exists; eauto).
  congruence.
Qed.

Lemma insertar_presente self q :
  ordenado (raiz self) -> presente q (raiz self) = true ->
  insertar self q = Ok (false, self).
Proof.
  intros Hord Hp. unfold insertar.
  rewrite (_buscar_obstaculo_presente _ q Hord), Hp.
  destruct (raiz self); [discriminate|reflexivity].
Qed.

Lemma eliminar_ausente self q :
  presente q (raiz self) = false -> eliminar self q = Ok (false, self).
Proof.
  intros Hp. unfold eliminar.
  rewrite (ausente__buscar_obstaculo _ _ Hp).
  destruct (raiz self); reflexivity.
Qed.

Lemma insertar_ausente self q :
  ordenado (raiz self) -> alturas_ok (raiz self) ->
  presente q (raiz self) = false ->
  exists raiz',
    insertar self q = Ok (true, mkArbol raiz' (total_obstaculos self + 1))
    /\ inorden raiz' = insertar_lista q (inorden (raiz self))
    /\ ordenado raiz' /\ alturas_ok raiz'
    /\ (avl (raiz self) -> avl raiz').
Proof.
  intros Hord Halt Hp. unfold insertar.
  rewrite (ausente__buscar_obstaculo _ _ Hp).
  assert (Hgen : forall raiz',
             inorden raiz' = insertar_lista q (inorden (raiz self)) ->
             ordenado raiz').
  { intros raiz' Hi. unfold ordenado. rewrite Hi.
    now apply ss_insertar_lista. }
  destruct (raiz self) as [|o l r h] eqn:Hr.
  - exists (NodoAVL_init q).
    split; [reflexivity|]. split; [reflexivity|].
    split; [now apply Hgen|].
    cbn [avl alturas_ok NodoAVL_init obtener_altura]. repeat split; lia.
  - cbn [es_nodo]. rewrite <- Hr in *.
    destruct (_insertar_recursivo_alturas_ok (raiz self) q Halt)
      as (raiz' & Hi & Ha & _).
    rewrite Hi. exists raiz'.
    pose proof (inorden__insertar_recursivo _ _ _ Hord Hi).
    repeat split; auto.
    intros Havl.
    destruct (_insertar_recursivo_avl (raiz self) q Havl)
      as (raiz2 & Hi2 & Ha2 & _).
    congruence.
Qed.

Lemma eliminar_presente self q :
  ordenado (raiz self) -> alturas_ok (raiz self) ->
  presente q (raiz self) = true ->
  exists raiz',
    eliminar self q = Ok (true, mkArbol raiz' (total_obstaculos self - 1))
    /\ inorden raiz' = quitar q (inorden (raiz self))
    /\ ordenado raiz' /\ alturas_ok raiz'
    /\ (avl (raiz self) -> avl raiz').
Proof.
  intros Hord Halt Hp. unfold eliminar.
  rewrite (_buscar_obstaculo_presente _ q Hord), Hp.
  destruct (raiz self) as [|o l r h] eqn:Hr; [discriminate|].
  cbn [negb]. rewrite <- Hr in *.
  destruct (_eliminar_recursivo_alturas_ok (raiz self) q Halt)
    as (raiz' & Hd & Ha).
  rewrite Hd. exists raiz'.
  pose proof (inorden__eliminar_recursivo _ _ _ Hord Hd) as Hi.
  repeat split; auto.
  - unfold ordenado. rewrite Hi. now apply ss_quitar.
  - intros Havl.
    destruct (_eliminar_recursivo_avl (raiz self) q Havl)
      as (raiz2 & Hd2 & Ha2 & _).
    congruence.
Qed.

Lemma invariante_init : invariante ArbolAVL_init.
Proof. repeat split. constructor. Qed.

(** On a valid tree every call returns, the invariant is restored and
    the counter moves with the boolean returned. *)
Lemma ejecutar_llamada_invariante self c :
  invariante self ->
  exists b self',
    ejecutar_llamada self c = Ok (b, self') /\ invariante self'
    /\ total_obstaculos self' =
       total_obstaculos self
       + match c with
         | Insertar _ => if b then 1 else 0
         | Eliminar _ => if b then -1 else 0
         end.
Proof.
  intros (Hord & Havl & Htot).
  destruct c as [q|q]; cbn [ejecutar_llamada];
    destruct (presente q (raiz self)) eqn:Hp.
  - exists false, self. rewrite (insertar_presente _ _ Hord Hp).
    repeat split; auto. lia.
  - destruct (insertar_ausente _ _ Hord (avl_alturas_ok _ Havl) Hp)
      as (raiz' & -> & Hi & Ho & _ & Ha).
    eexists _, _. split; [reflexivity|]. split; [|reflexivity].
    repeat split; auto. cbn [raiz total_obstaculos].
    rewrite Hi, insertar_lista_length. lia.
  - destruct (eliminar_presente _ _ Hord (avl_alturas_ok _ Havl) Hp)
      as (raiz' & -> & Hi & Ho & _ & Ha).
    eexists _, _. split; [reflexivity|]. split; [|cbn; lia].
    repeat split; auto. cbn [raiz total_obstaculos].
    pose proof (quitar_length q _ Hord Hp) as Hlen.
    rewrite Hi. lia.
  - exists false, self. rewrite (eliminar_ausente _ _ Hp).
    repeat split; auto. lia.
Qed.

Lemma alcanzable_invariante self : alcanzable self -> invariante self.
Proof.
  induction 1 as [|self c b self' _ IH Hc]; [apply invariante_init|].
  destruct (ejecutar_llamada_invariante self c IH) as (b' & s' & Hc' & Hi & _).
  congruence.
Qed.

Lemma ejecutar_alcanzable self cs registro self' :
  alcanzable self -> ejecutar self cs = Ok (registro, self') ->
  alcanzable self'.
Proof.
  revert self registro. induction cs as [|c cs IH]; intros self registro Ha.
  - cbn. now intros [= _ <-].
  - cbn [ejecutar].
    destruct (ejecutar_llamada self c) as [[b s1]|] eqn:Hc; [|discriminate].
    destruct (ejecutar (snd (b, s1)) cs) as [[reg s2]|] eqn:He; [|discriminate].
    intros [= _ <-]. cbn [snd] in *.
    eapply IH; [|exact He]. eapply alc_llamada; eassumption.
Qed.

(** Every sequence of calls on a valid tree runs to completion. *)
Lemma ejecutar_invariante self cs :
  invariante self ->
  exists registro self',
    ejecutar self cs = Ok (registro, self')
    /\ map fst registro = cs
    /\ invariante self'
    /\ total_obstaculos self' =
       total_obstaculos self
       + exitos_insertar registro - exitos_eliminar registro.
Proof.
  revert self. induction cs as [|c cs IH]; intros self Hinv.
  - exists [], self. cbn. repeat split; try apply Hinv. lia.
  - destruct (ejecutar_llamada_invariante self c Hinv)
      as (b & s1 & Hc & Hi1 & Ht1).
    destruct (IH s1 Hi1) as (reg & s2 & He & Hm & Hi2 & Ht2).
    exists ((c, b) :: reg), s2. cbn [ejecutar]. rewrite Hc. cbn [snd fst].
    rewrite He. cbn [snd fst map]. rewrite Hm.
    repeat split; try apply Hi2.
    rewrite Ht2, Ht1.
    destruct c, b; cbn [exitos_insertar exitos_eliminar]; lia.
Qed.

End Operaciones.

(** ** Range queries *)

Section Rango.

Variables x_min x_max y_min y_max : Z.

Let en_rango (o : Obstaculo.t) : bool :=
  Obstaculo.esta_en_rango o x_min x_max y_min y_max.

Lemma esta_en_rango_iff o :
  Obstaculo.esta_en_rango o x_min x_max y_min y_max = true
  <-> (x_min <= Obstaculo.x o <= x_max) /\ (y_min <= Obstaculo.y o <= y_max).
Proof.
  unfold Obstaculo.esta_en_rango. cbv zeta.
  rewrite !andb_true_iff, !Z.leb_le. tauto.
Qed.

Lemma _buscar_rango_recursivo_acumula nodo resultado :
  _buscar_rango_recursivo nodo x_min x_max y_min y_max resultado
  = resultado ++ _buscar_rango_recursivo nodo x_min x_max y_min y_max [].
Proof.
  revert resultado.
  induction nodo as [|o l IHl r IHr h]; intros acc;
    cbn [_buscar_rango_recursivo]; [now rewrite app_nil_r|].
  cbv zeta.
  set (propio := if Obstaculo.esta_en_rango o x_min x_max y_min y_max
                 then [o] else []).
  assert (H1 : (if Obstaculo.esta_en_rango o x_min x_max y_min y_max
                then acc ++ [o] else acc) = acc ++ propio).
  { unfold propio. destruct (Obstaculo.esta_en_rango _ _ _ _ _);
      [reflexivity | now rewrite app_nil_r]. }
  assert (H0 : (if Obstaculo.esta_en_rango o x_min x_max y_min y_max
                then [] ++ [o] else []) = propio).
  { unfold propio. destruct (Obstaculo.esta_en_rango _ _ _ _ _); reflexivity. }
  rewrite H1, H0.
  destruct (Obstaculo.x o >=? x_min), (Obstaculo.x o <=? x_max).
  - rewrite IHr, IHl, (IHr (_buscar_rango_recursivo l _ _ _ _ propio)),
      (IHl propio), <- !app_assoc. reflexivity.
  - rewrite IHl, (IHl propio), <- !app_assoc. reflexivity.
  - rewrite IHr, (IHr propio), <- !app_assoc. reflexivity.
  - reflexivity.
Qed.

Lemma filter_fuera_izquierda o l :
  Obstaculo.x o < x_min ->
  Forall (fun p => menor p o) l -> filter en_rango l = [].
Proof.
  intros Ho. induction 1 as [|p l Hp _ IH]; [reflexivity|].
  cbn [filter]. rewrite IH.
  destruct (en_rango p) eqn:Hr; [|reflexivity].
  apply esta_en_rango_iff in Hr. unfold menor in Hp. lia.
Qed.

Lemma filter_fuera_derecha o l :
  x_max < Obstaculo.x o ->
  Forall (menor o) l -> filter en_rango l = [].
Proof.
  intros Ho. induction 1 as [|p l Hp _ IH]; [reflexivity|].
  cbn [filter]. rewrite IH.
  destruct (en_rango p) eqn:Hr; [|reflexivity].
  apply esta_en_rango_iff in Hr. unfold menor in Hp. lia.
Qed.

(** The pruned traversal collects the in-range entries, each once. *)
Lemma _buscar_rango_recursivo_permutacion nodo :
  ordenado nodo ->
  Permutation (_buscar_rango_recursivo nodo x_min x_max y_min y_max [])
              (filter en_rango (inorden nodo)).
Proof.
  induction nodo as [|o l IHl r IHr h]; [constructor|].
  intros Hord. apply ordenado_nodo in Hord.
  destruct Hord as (Hl & Hr & Fl & Fr).
  specialize (IHl Hl). specialize (IHr Hr).
  cbn [_buscar_rango_recursivo inorden]. cbv zeta.
  rewrite filter_app. cbn [filter]. fold (en_rango o).
  set (propio := if en_rango o then [] ++ [o] else []).
  assert (Hpropio : (if en_rango o then o :: filter en_rango (inorden r)
                     else filter en_rango (inorden r))
                    = propio ++ filter en_rango (inorden r)).
  { unfold propio. destruct (en_rango o); reflexivity. }
  rewrite Hpropio.
  assert (Hizq : Permutation
                   (if Obstaculo.x o >=? x_min
                    then _buscar_rango_recursivo l x_min x_max y_min y_max propio
                    else propio)
                   (filter en_rango (inorden l) ++ propio)).
  { destruct (Z.geb_spec (Obstaculo.x o) x_min) as [Hge|Hlt].
    - rewrite _buscar_rango_recursivo_acumula.
      rewrite Permutation_app_comm. now apply Permutation_app_tail.
    - now rewrite (filter_fuera_izquierda o (inorden l) Hlt Fl). }
  destruct (Z.leb_spec (Obstaculo.x o) x_max) as [Hle|Hgt].
  - rewrite _buscar_rango_recursivo_acumula, app_assoc.
    now apply Permutation_app.
  - rewrite (filter_fuera_derecha o (inorden r) Hgt Fr), app_nil_r.
    exact Hizq.
Qed.

(** With an inverted window nothing is collected, on any tree. *)
Lemma _buscar_rango_recursivo_invertido nodo resultado :
  x_min > x_max \/ y_min > y_max ->
  _buscar_rango_recursivo nodo x_min x_max y_min y_max resultado = resultado.
Proof.
  intros Hinv. revert resultado.
  induction nodo as [|o l IHl r IHr h]; intros acc; [reflexivity|].
  cbn [_buscar_rango_recursivo]. cbv zeta.
  assert (Hr : Obstaculo.esta_en_rango o x_min x_max y_min y_max = false).
  { destruct (Obstaculo.esta_en_rango o x_min x_max y_min y_max) eqn:E;
      [|reflexivity].
    apply esta_en_rango_iff in E. lia. }
  rewrite Hr.
  destruct (Obstaculo.x o >=? x_min), (Obstaculo.x o <=? x_max);
    rewrite ?IHr, ?IHl; reflexivity.
Qed.

Lemma Permutation_filter_rango (l l' : list Obstaculo.t) :
  Permutation l l' -> Permutation (filter en_rango l) (filter en_rango l').
Proof.
  induction 1 as [|a l l' _ IH|a b l|l l' l'' _ IH1 _ IH2]; cbn [filter].
  - constructor.
  - destruct (en_rango a); [now constructor|assumption].
  - destruct (en_rango a), (en_rango b); try reflexivity. constructor.
  - etransitivity; eassumption.
Qed.

End Rango.

(** ** Deleting a stored key *)

Section Borrado.

(** In a strictly ascending list, removing a stored key removes exactly
    one entry. *)
Lemma quitar_presente_partes q l :
  StronglySorted menor l ->
  existsb (fun p => es_igual_a p q) l = true ->
  exists l1 p l2,
    l = l1 ++ p :: l2 /\ es_igual_a p q = true /\ quitar q l = l1 ++ l2.
Proof.
  induction 1 as [|a l Hs IH Hf]; cbn [existsb]; [discriminate|].
  destruct (es_igual_a a q) eqn:Ha; cbn [orb]; intros Hex.
  - exists [], a, l. repeat split; auto.
    unfold quitar. cbn [filter]. rewrite Ha. cbn [negb app].
    apply (quitar_todos_mayores q l).
    eapply Forall_impl; [|exact Hf].
    apply es_igual_a_iff in Ha. unfold menor. intros p. lia.
  - destruct (IH Hex) as (l1 & p & l2 & -> & Hp & Hq).
    exists (a :: l1), p, l2. repeat split; auto.
    unfold quitar in *. cbn [filter]. rewrite Ha. cbn [negb app].
    now rewrite Hq.
Qed.

(** The two-children case of [_eliminar_recursivo], step by step. *)
Lemma _eliminar_recursivo_dos_hijos o l r h q :
  ordenado (Nodo o l r h) -> alturas_ok (Nodo o l r h) ->
  es_igual_a o q = true -> es_nodo l = true -> es_nodo r = true ->
  exists s sl sr sh resto r' nodo',
    _encontrar_minimo r = Ok (Nodo s sl sr sh)
    /\ inorden r = s :: resto
    /\ _eliminar_recursivo r s = Ok r'
    /\ inorden r' = resto
    /\ _eliminar_recursivo (Nodo o l r h) q
       = balancear (actualizar_altura (Nodo s l r' h))
    /\ balancear (actualizar_altura (Nodo s l r' h)) = Ok nodo'
    /\ inorden nodo' = inorden l ++ s :: resto
    /\ inorden nodo' = quitar q (inorden (Nodo o l r h))
    /\ ordenado nodo' /\ alturas_ok nodo'.
Proof.
  intros Hord Havl Heq Hnl Hnr.
  destruct (_eliminar_recursivo_alturas_ok _ q Havl) as (nodo' & Hd & Ha').
  pose proof (inorden__eliminar_recursivo _ _ _ Hord Hd) as Hin.
  assert (Ho' : ordenado nodo').
  { unfold ordenado. rewrite Hin. now apply ss_quitar. }
  pose proof Hord as Hord0.
  apply ordenado_nodo in Hord. destruct Hord as (Hl & Hr & Fl & Fr).
  destruct Havl as (Hal & Har & _).
  destruct (_encontrar_minimo_primero r Hnr)
    as (s & sl & sr & sh & resto & Hm & Hi).
  destruct (_eliminar_recursivo_alturas_ok r s Har) as (r' & Hdr & _).
  pose proof (inorden__eliminar_recursivo _ _ _ Hr Hdr) as Hinr.
  assert (Hresto : inorden r' = resto).
  { rewrite Hinr, Hi. unfold ordenado in Hr. rewrite Hi in Hr.
    inversion Hr; subst. unfold quitar. cbn [filter].
    assert (Hss : es_igual_a s s = true) by (apply es_igual_a_iff; auto).
    rewrite Hss. cbn [negb]. now apply (quitar_todos_mayores s resto). }
  assert (Hpaso : _eliminar_recursivo (Nodo o l r h) q
                  = balancear (actualizar_altura (Nodo s l r' h))).
  { cbn [_eliminar_recursivo]. rewrite Heq.
    destruct l as [|ol ll lr hl]; [discriminate|].
    destruct r as [|or rl rr hr]; [discriminate|].
    rewrite Hm. cbn [attr_obstaculo]. now rewrite Hdr. }
  exists s, sl, sr, sh, resto, r', nodo'.
  rewrite <- Hpaso.
  repeat split; auto.
  cbn [actualizar_altura] in Hpaso. rewrite Hpaso in Hd.
  apply inorden_balancear_nodo in Hd. now rewrite Hd, Hresto.
Qed.

End Borrado.

(** ** Termination: a budget above the tree size is never exhausted *)

Section Terminacion.

Lemma _buscar_obstaculo_comb_total nodo q n :
  (tamano nodo < n)%nat ->
  _buscar_obstaculo_comb n nodo q = Some (_buscar_obstaculo nodo q).
Proof.
  revert n. induction nodo as [|o l IHl r IHr h]; intros [|n] Hn;
    cbn [tamano] in Hn; try lia; cbn [_buscar_obstaculo_comb _buscar_obstaculo];
    [reflexivity|].
  destruct (es_igual_a o q); [reflexivity|].
  destruct (es_mayor_que o q); [apply IHl|apply IHr]; lia.
Qed.

Lemma _insertar_recursivo_comb_total nodo q n :
  (tamano nodo < n)%nat ->
  _insertar_recursivo_comb n nodo q = Some (_insertar_recursivo nodo q).
Proof.
  revert n. induction nodo as [|o l IHl r IHr h]; intros [|n] Hn;
    cbn [tamano] in Hn; try lia;
    cbn [_insertar_recursivo_comb _insertar_recursivo]; [reflexivity|].
  destruct (es_mayor_que o q);
    [rewrite IHl by lia | rewrite IHr by lia]; reflexivity.
Qed.

Lemma _encontrar_minimo_comb_total nodo n :
  (tamano nodo < n)%nat ->
  _encontrar_minimo_comb n nodo = Some (_encontrar_minimo nodo).
Proof.
  revert n. induction nodo as [|o l IHl r _ h]; intros [|n] Hn;
    cbn [tamano] in Hn; try lia;
    cbn [_encontrar_minimo_comb _encontrar_minimo]; [reflexivity|].
  destruct l as [|ol ll lr hl]; [reflexivity|]. apply IHl. lia.
Qed.

Lemma _eliminar_recursivo_comb_total nodo q n :
  (tamano nodo < n)%nat ->
  _eliminar_recursivo_comb n nodo q = Some (_eliminar_recursivo nodo q).
Proof.
  revert q n. induction nodo as [|o l IHl r IHr h]; intros q [|n] Hn;
    cbn [tamano] in Hn; try lia;
    cbn [_eliminar_recursivo_comb _eliminar_recursivo]; [reflexivity|].
  destruct (es_igual_a o q).
  - destruct l as [|ol ll lr hl], r as [|or rl rr hr]; try reflexivity.
    rewrite _encontrar_minimo_comb_total by lia.
    destruct (_encontrar_minimo (Nodo or rl rr hr)) as [sucesor|];
      [|reflexivity].
    destruct (attr_obstaculo sucesor) as [o'|]; [|reflexivity].
    rewrite IHr by lia. reflexivity.
  - destruct (es_mayor_que o q);
      [rewrite IHl by lia | rewrite IHr by lia]; reflexivity.
Qed.

Lemma _buscar_rango_recursivo_comb_total nodo x_min x_max y_min y_max res n :
  (tamano nodo < n)%nat ->
  _buscar_rango_recursivo_comb n nodo x_min x_max y_min y_max res
  = Some (_buscar_rango_recursivo nodo x_min x_max y_min y_max res).
Proof.
  revert res n. induction nodo as [|o l IHl r IHr h]; intros res [|n] Hn;
    cbn [tamano] in Hn; try lia;
    cbn [_buscar_rango_recursivo_comb _buscar_rango_recursivo];
    [reflexivity|].
  cbv zeta.
  destruct (Obstaculo.x o >=? x_min), (Obstaculo.x o <=? x_max);
    rewrite ?IHl by lia; rewrite ?IHr by lia; reflexivity.
Qed.

Lemma _recorrido_inorder_recursivo_comb_total nodo res n :
  (tamano nodo < n)%nat ->
  _recorrido_inorder_recursivo_comb n nodo res
  = Some (_recorrido_inorder_recursivo nodo res).
Proof.
  revert res n. induction nodo as [|o l IHl r IHr h]; intros res [|n] Hn;
    cbn [tamano] in Hn; try lia;
    cbn [_recorrido_inorder_recursivo_comb _recorrido_inorder_recursivo];
    [reflexivity|].
  rewrite IHl by lia. cbv zeta. rewrite IHr by lia. reflexivity.
Qed.

Lemma peso_app c1 c2 : peso (c1 ++ c2) = (peso c1 + peso c2)%nat.
Proof.
  induction c1 as [|a c1 IH]; cbn [peso app]; [reflexivity|].
  rewrite IH. lia.
Qed.

(** One iteration of the breadth-first loop strictly shrinks the work still
    queued: the popped node is replaced by its children. *)
Lemma peso_iteracion o l r h cola :
  S (peso (encolar r (encolar l cola))) = peso (Nodo o l r h :: cola).
Proof.
  unfold encolar.
  destruct l, r; cbn [es_nodo]; rewrite ?peso_app; cbn [peso tamano]; lia.
Qed.

Lemma encolar_nodos hijo cola :
  Forall (fun c => es_nodo c = true) cola ->
  Forall (fun c => es_nodo c = true) (encolar hijo cola).
Proof.
  intros Hc. unfold encolar. destruct (es_nodo hijo) eqn:Hh; [|assumption].
  rewrite Forall_app. split; [assumption|]. now constructor.
Qed.

Lemma anchura_bucle_total n :
  forall cola res,
    Forall (fun c => es_nodo c = true) cola ->
    (peso cola <= n)%nat ->
    exists visitados,
      anchura_bucle n cola res = Some (Ok (res ++ visitados))
      /\ length visitados = peso cola
      /\ forall m, (peso cola <= m)%nat ->
                   anchura_bucle m cola res = Some (Ok (res ++ visitados)).
Proof.
  intros cola. remember (peso cola) as w eqn:Hw.
  revert n cola Hw.
  induction w as [w IH] using lt_wf_ind.
  intros n cola Hw res Hc Hn.
  destruct cola as [|nodo cola].
  - exists []. rewrite app_nil_r. cbn [peso] in Hw. subst w.
    repeat split; [destruct n | intros [|m] _]; reflexivity.
  - inversion Hc as [|? ? Hnodo Hc']; subst.
    destruct nodo as [|o l r h]; [discriminate|].
    pose proof (peso_iteracion o l r h cola) as Hp.
    pose proof (encolar_nodos r _ (encolar_nodos l _ Hc')) as Hf.
    destruct n as [|n]; [lia|].
    destruct (IH (peso (encolar r (encolar l cola))) ltac:(lia) n _ eq_refl
                (res ++ [o]) Hf ltac:(lia)) as (vis & He & Hlen & Hm).
    exists (o :: vis).
    replace (res ++ o :: vis) with ((res ++ [o]) ++ vis)
      by (now rewrite <- app_assoc).
    split; [exact He|]. split; [cbn [length]; lia|].
    intros [|m] Hle; [lia|]. apply Hm. lia.
Qed.

End Terminacion.

(** ** Properties of the specification *)

Lemma avl_es_subarbol n nodo : avl nodo -> es_subarbol n nodo -> avl n.
Proof.
  induction nodo as [|o l IHl r IHr h]; cbn [es_subarbol]; [contradiction|].
  intros Ha [->|[Hs|Hs]]; [assumption| |];
    destruct Ha as (Hl & Hr & _); auto.
Qed.

(** C1. After any sequence of [insertar] and [eliminar] calls on the empty
    tree every call has returned and, in the resulting tree, the balance
    factor of every node is the difference of the real heights of its two
    subtrees and is one of -1, 0, 1. *)
Theorem C1_factor_balance_acotado :
  forall cs : list llamada,
  exists registro self,
    ejecutar ArbolAVL_init cs = Ok (registro, self)
    /\ forall o l r h,
        es_subarbol (Nodo o l r h) (raiz self) ->
        obtener_factor_balance (Nodo o l r h)
        = altura_real l - altura_real r
        /\ (obtener_factor_balance (Nodo o l r h) = -1
            \/ obtener_factor_balance (Nodo o l r h) = 0
            \/ obtener_factor_balance (Nodo o l r h) = 1).
Proof.
  intros cs.
  destruct (ejecutar_invariante ArbolAVL_init cs invariante_init)
    as (registro & self & He & _ & (_ & Havl & _) & _).
  exists registro, self. split; [exact He|].
  intros o l r h Hs.
  pose proof (avl_es_subarbol _ _ Havl Hs) as (Hl & Hr & _ & Hb).
  cbn [obtener_factor_balance].
  rewrite <- (avl_altura_real l Hl), <- (avl_altura_real r Hr).
  split; [reflexivity|lia].
Qed.

(** C2. After any sequence of [insertar] and [eliminar] calls on the empty
    tree, [recorrido_en_profundidad] lists the stored entries left to right
    and each entry is strictly below the next one in the lexicographic
    order on (x, y). *)
Theorem C2_recorrido_ascendente :
  forall cs : list llamada,
  exists registro self,
    ejecutar ArbolAVL_init cs = Ok (registro, self)
    /\ recorrido_en_profundidad self = inorden (raiz self)
    /\ ascendente (recorrido_en_profundidad self) = true
    /\ StronglySorted menor (recorrido_en_profundidad self).
Proof.
  intros cs.
  destruct (ejecutar_invariante ArbolAVL_init cs invariante_init)
    as (registro & self & He & _ & (Hord & _ & _) & _).
  exists registro, self. rewrite recorrido_en_profundidad_inorden.
  repeat split; auto. now apply ss_ascendente.
Qed.

(** C6. After any sequence of calls on the empty tree the counter returned
    by [obtener_total_obstaculos] is the number of [insertar] calls that
    returned true minus the number of [eliminar] calls that returned true,
    and it is the length of [recorrido_en_profundidad]. *)
Theorem C6_total_obstaculos :
  forall cs : list llamada,
  exists registro self,
    ejecutar ArbolAVL_init cs = Ok (registro, self)
    /\ map fst registro = cs
    /\ obtener_total_obstaculos self
       = exitos_insertar registro - exitos_eliminar registro
    /\ obtener_total_obstaculos self
       = Z.of_nat (length (recorrido_en_profundidad self)).
Proof.
  intros cs.
  destruct (ejecutar_invariante ArbolAVL_init cs invariante_init)
    as (registro & self & He & Hm & (_ & _ & Hlen) & Htot).
  exists registro, self. rewrite recorrido_en_profundidad_inorden.
  unfold obtener_total_obstaculos.
  repeat split; auto.
Qed.

(** C4. On a tree that is ordered and whose stored heights are consistent:
    [insertar] of a stored coordinate pair returns false and [eliminar] of
    an absent pair returns false, both leaving the tree (root, entry sequence
    and counter) as it was; [insertar] of an absent pair and [eliminar] of a
    stored pair return true. *)
Theorem C4_operaciones_fallidas (self : ArbolAVL) (q : Obstaculo.t) :
  ordenado (raiz self) -> alturas_ok (raiz self) ->
  (presente q (raiz self) = true ->
   insertar self q = Ok (false, self)
   /\ exists self', eliminar self q = Ok (true, self'))
  /\ (presente q (raiz self) = false ->
      eliminar self q = Ok (false, self)
      /\ exists self', insertar self q = Ok (true, self')).
Proof.
  intros Hord Havl. split; intros Hp; split.
  - now apply insertar_presente.
  - destruct (eliminar_presente _ _ Hord Havl Hp) as (r' & He & _). eauto.
  - now apply eliminar_ausente.
  - destruct (insertar_ausente _ _ Hord Havl Hp) as (r' & He & _). eauto.
Qed.

(** C9. On a tree reachable from the empty one, inserting an entry whose
    coordinates are not stored and then deleting those coordinates returns
    true both times and gives back the original entry sequence (and
    counter). *)
Theorem C9_insertar_eliminar (self : ArbolAVL) (q q' : Obstaculo.t) :
  alcanzable self ->
  presente q (raiz self) = false ->
  Obstaculo.x q' = Obstaculo.x q -> Obstaculo.y q' = Obstaculo.y q ->
  exists self1 self2,
    insertar self q = Ok (true, self1)
    /\ eliminar self1 q' = Ok (true, self2)
    /\ recorrido_en_profundidad self2 = recorrido_en_profundidad self
    /\ obtener_total_obstaculos self2 = obtener_total_obstaculos self.
Proof.
  intros Halc Hp Hx Hy.
  destruct (alcanzable_invariante _ Halc) as (Hord & Havl & _).
  destruct (insertar_ausente _ _ Hord (avl_alturas_ok _ Havl) Hp)
    as (r1 & Hi & Hin1 & Ho1 & Ha1 & _).
  assert (Hp1 : presente q' r1 = true).
  { unfold presente. rewrite Hin1. apply existsb_exists. exists q. split.
    - apply insertar_lista_In. now left.
    - apply es_igual_a_iff. auto. }
  destruct (eliminar_presente (mkArbol r1 (total_obstaculos self + 1)) q'
              Ho1 Ha1 Hp1) as (r2 & He & Hin2 & _).
  eexists _, _. split; [exact Hi|]. split; [exact He|].
  rewrite !recorrido_en_profundidad_inorden. cbn [raiz] in *.
  unfold obtener_total_obstaculos. cbn [total_obstaculos].
  split; [|lia].
  rewrite Hin2, Hin1. now apply quitar_insertar_lista.
Qed.

(** C10. On an ordered tree that stores an entry [p], [insertar] of any
    entry with the coordinates of [p] (whatever its category and dimensions)
    returns false and leaves the tree as it was: [es_igual_a] and [__eq__]
    hold between the two entries, and the lookup for those coordinates still
    yields [p] itself. *)
Theorem C10_duplicado_conserva_atributos
  (self : ArbolAVL) (p q : Obstaculo.t) :
  ordenado (raiz self) ->
  In p (recorrido_en_profundidad self) ->
  Obstaculo.x q = Obstaculo.x p -> Obstaculo.y q = Obstaculo.y p ->
  es_igual_a p q = true
  /\ Obstaculo.eq p q = true
  /\ insertar self q = Ok (false, self)
  /\ exists l r h, _buscar_obstaculo (raiz self) q = Nodo p l r h.
Proof.
  intros Hord Hin Hx Hy. rewrite recorrido_en_profundidad_inorden in Hin.
  assert (Heq : es_igual_a p q = true) by (apply es_igual_a_iff; auto).
  split; [exact Heq|]. split; [exact Heq|]. split.
  - apply insertar_presente; [assumption|].
    apply existsb_exists. eauto.
  - now apply _buscar_obstaculo_encuentra.
Qed.

(** C7. Inserting (1,0), (2,0), (3,0) into the empty tree leaves (2,0) at
    the root with height 2, and inserting (3,0), (1,0), (2,0) also leaves
    (2,0) at the root, whatever the attributes of the entries. *)
Theorem C7_rotaciones :
  forall (tipo : Z -> Z -> Obstaculo.TipoObstaculo) (ancho alto : Z -> Z -> Z),
    (exists registro self,
        ejecutar ArbolAVL_init
          [Insertar (entrada tipo ancho alto 1 0);
           Insertar (entrada tipo ancho alto 2 0);
           Insertar (entrada tipo ancho alto 3 0)] = Ok (registro, self)
        /\ attr_obstaculo (raiz self) = Ok (entrada tipo ancho alto 2 0)
        /\ obtener_altura (raiz self) = 2
        /\ altura_real (raiz self) = 2)
    /\ (exists registro self,
           ejecutar ArbolAVL_init
             [Insertar (entrada tipo ancho alto 3 0);
              Insertar (entrada tipo ancho alto 1 0);
              Insertar (entrada tipo ancho alto 2 0)] = Ok (registro, self)
           /\ attr_obstaculo (raiz self) = Ok (entrada tipo ancho alto 2 0)).
Proof.
  intros tipo ancho alto. split.
  - eexists _, _. split; [vm_compute; reflexivity|].
    repeat split.
  - eexists _, _. split; [vm_compute; reflexivity|].
    reflexivity.
Qed.

(** C3. On an ordered tree [buscar_en_rango] returns exactly the stored
    entries with x in [x_min, x_max] and y in [y_min, y_max], each once;
    with an inverted window it returns nothing; and for the entries (10,0),
    (5,1), (20,2), (5,0), (15,1) the query (5,15,0,2) returns (10,0), (5,1),
    (5,0), (15,1). *)
Theorem C3_buscar_en_rango :
  (forall (self : ArbolAVL) (x_min x_max y_min y_max : Z),
      ordenado (raiz self) ->
      Permutation (buscar_en_rango self x_min x_max y_min y_max)
        (filter (fun o => Obstaculo.esta_en_rango o x_min x_max y_min y_max)
           (recorrido_en_profundidad self))
      /\ forall o,
          In o (buscar_en_rango self x_min x_max y_min y_max)
          <-> In o (recorrido_en_profundidad self)
              /\ (x_min <= Obstaculo.x o <= x_max)
              /\ (y_min <= Obstaculo.y o <= y_max))
  /\ (forall (self : ArbolAVL) (x_min x_max y_min y_max : Z),
         x_min > x_max \/ y_min > y_max ->
         buscar_en_rango self x_min x_max y_min y_max = [])
  /\ (forall (tipo : Z -> Z -> Obstaculo.TipoObstaculo)
        (ancho alto : Z -> Z -> Z),
         let e := entrada tipo ancho alto in
         (forall self,
             ordenado (raiz self) ->
             Permutation (recorrido_en_profundidad self)
               [e 10 0; e 5 1; e 20 2; e 5 0; e 15 1] ->
             Permutation (buscar_en_rango self 5 15 0 2)
               [e 10 0; e 5 1; e 5 0; e 15 1])
         /\ exists registro self,
             ejecutar ArbolAVL_init
               [Insertar (e 10 0); Insertar (e 5 1); Insertar (e 20 2);
                Insertar (e 5 0); Insertar (e 15 1)] = Ok (registro, self)
             /\ buscar_en_rango self 5 15 0 2
                = [e 10 0; e 5 1; e 5 0; e 15 1]).
Proof.
  assert (General : forall self x_min x_max y_min y_max,
             ordenado (raiz self) ->
             Permutation (buscar_en_rango self x_min x_max y_min y_max)
               (filter
                  (fun o => Obstaculo.esta_en_rango o x_min x_max y_min y_max)
                  (recorrido_en_profundidad self))).
  { intros self x_min x_max y_min y_max Hord.
    rewrite recorrido_en_profundidad_inorden.
    now apply _buscar_rango_recursivo_permutacion. }
  split; [|split].
  - intros self x_min x_max y_min y_max Hord.
    split; [now apply General|].
    intros o. split.
    + intros Hin.
      apply (Permutation_in _ (General self x_min x_max y_min y_max Hord))
        in Hin.
      apply filter_In in Hin. destruct Hin as [Hin Hr].
      split; [assumption|]. now apply esta_en_rango_iff.
    + intros [Hin Hr].
      apply (Permutation_in _
               (Permutation_sym (General self x_min x_max y_min y_max Hord))).
      apply filter_In. split; [assumption|]. now apply esta_en_rango_iff.
  - intros self x_min x_max y_min y_max Hinv.
    now apply _buscar_rango_recursivo_invertido.
  - intros tipo ancho alto e. split.
    + intros self Hord Hperm.
      rewrite (General self 5 15 0 2 Hord).
      rewrite (Permutation_filter_rango 5 15 0 2 _ _ Hperm).
      reflexivity.
    + eexists _, _. split; vm_compute; reflexivity.
Qed.

(** C5. On an ordered tree with consistent stored heights, deleting a
    stored key whose node has two children overwrites the node's entry with
    the first entry of its right subtree (found by [_encontrar_minimo]),
    deletes that entry from the right subtree and rebalances; [eliminar] of a stored key returns true and the
    new entry sequence is the old one without the deleted entry, still
    strictly ascending.  Deleting (30,1) from the tree built from (30,1),
    (10,0), (40,2), (5,0), (20,1) goes through the two-children case and
    leaves (5,0), (10,0), (20,1), (40,2). *)
Theorem C5_eliminar_dos_hijos :
  (forall o l r h q,
      ordenado (Nodo o l r h) -> alturas_ok (Nodo o l r h) ->
      es_igual_a o q = true -> es_nodo l = true -> es_nodo r = true ->
      exists s sl sr sh resto r' nodo',
        _encontrar_minimo r = Ok (Nodo s sl sr sh)
        /\ inorden r = s :: resto
        /\ _eliminar_recursivo r s = Ok r'
        /\ inorden r' = resto
        /\ _eliminar_recursivo (Nodo o l r h) q
           = balancear (actualizar_altura (Nodo s l r' h))
        /\ balancear (actualizar_altura (Nodo s l r' h)) = Ok nodo'
        /\ inorden nodo' = inorden l ++ s :: resto
        /\ ordenado nodo')
  /\ (forall self q,
         ordenado (raiz self) -> alturas_ok (raiz self) ->
         presente q (raiz self) = true ->
         exists self' antes p despues,
           eliminar self q = Ok (true, self')
           /\ recorrido_en_profundidad self = antes ++ p :: despues
           /\ es_igual_a p q = true
           /\ recorrido_en_profundidad self' = antes ++ despues
           /\ ascendente (recorrido_en_profundidad self') = true)
  /\ (forall (tipo : Z -> Z -> Obstaculo.TipoObstaculo)
        (ancho alto : Z -> Z -> Z),
         let e := entrada tipo ancho alto in
         exists registro o l r h self',
           ejecutar ArbolAVL_init
             [Insertar (e 30 1); Insertar (e 10 0); Insertar (e 40 2);
              Insertar (e 5 0); Insertar (e 20 1)]
           = Ok (registro, mkArbol (Nodo o l r h) 5)
           /\ es_igual_a o (e 30 1) = true
           /\ es_nodo l = true /\ es_nodo r = true
           /\ eliminar (mkArbol (Nodo o l r h) 5) (e 30 1) = Ok (true, self')
           /\ recorrido_en_profundidad self'
              = [e 5 0; e 10 0; e 20 1; e 40 2]
           /\ ascendente (recorrido_en_profundidad self') = true).
Proof.
  split; [|split].
  - intros o l r h q Hord Havl Heq Hl Hr.
    destruct (_eliminar_recursivo_dos_hijos o l r h q Hord Havl Heq Hl Hr)
      as (s & sl & sr & sh & resto & r' & nodo'
          & H1 & H2 & H3 & H4 & H5 & H6 & H7 & _ & H9 & _).
    exists s, sl, sr, sh, resto, r', nodo'. repeat split; assumption.
  - intros self q Hord Havl Hp.
    destruct (eliminar_presente _ _ Hord Havl Hp) as (r' & He & Hi & Ho & _).
    destruct (quitar_presente_partes q _ Hord Hp)
      as (antes & p & despues & Hpart & Hpq & Hquit).
    exists (mkArbol r' (total_obstaculos self - 1)), antes, p, despues.
    rewrite !recorrido_en_profundidad_inorden. cbn [raiz].
    repeat split; auto.
    + congruence.
    + now apply ss_ascendente.
  - intros tipo ancho alto e.
    eexists _, _, _, _, _, _.
    split; [vm_compute; reflexivity|].
    repeat split; vm_compute; reflexivity.
Qed.

(** C8. Every operation returns on every tree and every input: run with a
    step budget larger than the number of nodes, lookup, [insertar],
    [eliminar] (with its nested deletion of the successor),
    [buscar_en_rango], [recorrido_en_profundidad] and the queue loop of
    [recorrido_en_anchura] never exhaust the budget and return the result
    of the recursive definitions; the breadth-first traversal visits as many
    entries as the tree has nodes, and each iteration of its loop leaves
    strictly fewer nodes under the queue. *)
Theorem C8_terminacion (self : ArbolAVL) (q : Obstaculo.t)
  (x_min x_max y_min y_max : Z) (n : nat) :
  (tamano (raiz self) < n)%nat ->
  _buscar_obstaculo_comb n (raiz self) q
  = Some (_buscar_obstaculo (raiz self) q)
  /\ insertar_comb n self q = Some (insertar self q)
  /\ eliminar_comb n self q = Some (eliminar self q)
  /\ buscar_en_rango_comb n self x_min x_max y_min y_max
     = Some (buscar_en_rango self x_min x_max y_min y_max)
  /\ recorrido_en_profundidad_comb n self
     = Some (recorrido_en_profundidad self)
  /\ recorrido_en_anchura_comb n self = Some (Ok (recorrido_en_anchura self))
  /\ length (recorrido_en_anchura self) = tamano (raiz self)
  /\ forall o l r h cola,
      (peso (encolar r (encolar l cola)) < peso (Nodo o l r h :: cola))%nat.
Proof.
  intros Hn.
  pose proof (_buscar_obstaculo_comb_total (raiz self) q n Hn) as Hb.
  split; [exact Hb|].
  split.
  { unfold insertar_comb, insertar. rewrite Hb.
    rewrite _insertar_recursivo_comb_total by assumption.
    destruct (raiz self); [reflexivity|].
    destruct (es_nodo _); reflexivity. }
  split.
  { unfold eliminar_comb, eliminar. rewrite Hb.
    rewrite _eliminar_recursivo_comb_total by assumption.
    destruct (raiz self); [reflexivity|].
    destruct (negb _); reflexivity. }
  split; [now apply _buscar_rango_recursivo_comb_total|].
  split; [now apply _recorrido_inorder_recursivo_comb_total|].
  assert (Hanchura :
            recorrido_en_anchura_comb n self
            = Some (Ok (recorrido_en_anchura self))
            /\ length (recorrido_en_anchura self) = tamano (raiz self)).
  { unfold recorrido_en_anchura, recorrido_en_anchura_comb.
    destruct (raiz self) as [|o l r h] eqn:Hr; [split; reflexivity|].
    destruct (anchura_bucle_total (tamano (Nodo o l r h)) [Nodo o l r h] [])
      as (vis & He & Hlen & Hm).
    - repeat constructor.
    - cbn [peso]. lia.
    - rewrite He. cbn [app]. split.
      + apply (Hm n). cbn [peso]. lia.
      + rewrite Hlen. cbn [peso]. lia. }
  destruct Hanchura as [Ha1 Ha2].
  split; [exact Ha1|]. split; [exact Ha2|].
  intros o l r h cola. rewrite <- peso_iteracion. lia.
Qed.

(** ** Concrete instances *)

Lemma arbol_ejemplo_ordenado : ordenado (raiz arbol_ejemplo).
Proof. apply ascendente_ss. reflexivity. Defined.

Lemma arbol_ejemplo_alturas_ok : alturas_ok (raiz arbol_ejemplo).
Proof. cbn. repeat split; lia. Defined.

Lemma arbol_ejemplo_alcanzable : alcanzable arbol_ejemplo.
Proof.
  apply (ejecutar_alcanzable ArbolAVL_init
           [Insertar (roca 1 0); Insertar (roca 2 0); Insertar (roca 3 0)]
           [(Insertar (roca 1 0), true); (Insertar (roca 2 0), true);
            (Insertar (roca 3 0), true)]).
  - exact alc_init.
  - reflexivity.
Defined.

Lemma C4_operaciones_fallidas_witness :
  ordenado (raiz arbol_ejemplo) /\ alturas_ok (raiz arbol_ejemplo)
  /\ presente (Obstaculo.init 2 0 Obstaculo.BARRERA 30 30)
       (raiz arbol_ejemplo) = true
  /\ insertar arbol_ejemplo (Obstaculo.init 2 0 Obstaculo.BARRERA 30 30)
     = Ok (false, arbol_ejemplo)
  /\ (exists self',
         eliminar arbol_ejemplo (Obstaculo.init 2 0 Obstaculo.BARRERA 30 30)
         = Ok (true, self'))
  /\ presente (roca 7 4) (raiz arbol_ejemplo) = false
  /\ eliminar arbol_ejemplo (roca 7 4) = Ok (false, arbol_ejemplo)
  /\ exists self', insertar arbol_ejemplo (roca 7 4) = Ok (true, self').
Proof.
  split; [exact arbol_ejemplo_ordenado|].
  split; [exact arbol_ejemplo_alturas_ok|].
  split; [reflexivity|].
  destruct (C4_operaciones_fallidas arbol_ejemplo
              (Obstaculo.init 2 0 Obstaculo.BARRERA 30 30)
              arbol_ejemplo_ordenado arbol_ejemplo_alturas_ok) as [Hpresente _].
  destruct (C4_operaciones_fallidas arbol_ejemplo (roca 7 4)
              arbol_ejemplo_ordenado arbol_ejemplo_alturas_ok) as [_ Hausente].
  split; [apply Hpresente; reflexivity|].
  split; [apply Hpresente; reflexivity|].
  split; [reflexivity|].
  split; [apply Hausente; reflexivity|].
  apply Hausente; reflexivity.
Defined.

Lemma C9_insertar_eliminar_witness :
  alcanzable arbol_ejemplo
  /\ presente (roca 7 4) (raiz arbol_ejemplo) = false
  /\ exists self1 self2,
      insertar arbol_ejemplo (roca 7 4) = Ok (true, self1)
      /\ eliminar self1 (Obstaculo.init 7 4 Obstaculo.CONO 10 10)
         = Ok (true, self2)
      /\ recorrido_en_profundidad self2
         = recorrido_en_profundidad arbol_ejemplo
      /\ obtener_total_obstaculos self2
         = obtener_total_obstaculos arbol_ejemplo.
Proof.
  split; [exact arbol_ejemplo_alcanzable|].
  split; [reflexivity|].
  apply (C9_insertar_eliminar arbol_ejemplo (roca 7 4)
           (Obstaculo.init 7 4 Obstaculo.CONO 10 10)
           arbol_ejemplo_alcanzable);
    reflexivity.
Defined.

Lemma C10_duplicado_conserva_atributos_witness :
  ordenado (raiz arbol_ejemplo)
  /\ In (roca 2 0) (recorrido_en_profundidad arbol_ejemplo)
  /\ es_igual_a (roca 2 0) (Obstaculo.init 2 0 Obstaculo.BARRERA 50 70) = true
  /\ Obstaculo.eq (roca 2 0) (Obstaculo.init 2 0 Obstaculo.BARRERA 50 70)
     = true
  /\ insertar arbol_ejemplo (Obstaculo.init 2 0 Obstaculo.BARRERA 50 70)
     = Ok (false, arbol_ejemplo)
  /\ exists l r h,
      _buscar_obstaculo (raiz arbol_ejemplo)
        (Obstaculo.init 2 0 Obstaculo.BARRERA 50 70)
      = Nodo (roca 2 0) l r h.
Proof.
  split; [exact arbol_ejemplo_ordenado|].
  assert (Hin : In (roca 2 0) (recorrido_en_profundidad arbol_ejemplo))
    by (right; left; reflexivity).
  split; [exact Hin|].
  apply (C10_duplicado_conserva_atributos arbol_ejemplo (roca 2 0)
           (Obstaculo.init 2 0 Obstaculo.BARRERA 50 70)
           arbol_ejemplo_ordenado Hin);
    reflexivity.
Defined.

Lemma C8_terminacion_witness :
  (tamano (raiz arbol_ejemplo) < 4)%nat
  /\ _buscar_obstaculo_comb 4 (raiz arbol_ejemplo) (roca 3 0)
     = Some (_buscar_obstaculo (raiz arbol_ejemplo) (roca 3 0))
  /\ insertar_comb 4 arbol_ejemplo (roca 3 0)
     = Some (insertar arbol_ejemplo (roca 3 0))
  /\ eliminar_comb 4 arbol_ejemplo (roca 3 0)
     = Some (eliminar arbol_ejemplo (roca 3 0))
  /\ buscar_en_rango_comb 4 arbol_ejemplo 0 2 0 5
     = Some (buscar_en_rango arbol_ejemplo 0 2 0 5)
  /\ recorrido_en_profundidad_comb 4 arbol_ejemplo
     = Some (recorrido_en_profundidad arbol_ejemplo)
  /\ recorrido_en_anchura_comb 4 arbol_ejemplo
     = Some (Ok (recorrido_en_anchura arbol_ejemplo))
  /\ length (recorrido_en_anchura arbol_ejemplo)
     = tamano (raiz arbol_ejemplo)
  /\ forall o l r h cola,
      (peso (encolar r (encolar l cola)) < peso (Nodo o l r h :: cola))%nat.
Proof.
  assert (Hn : (tamano (raiz arbol_ejemplo) < 4)%nat) by (cbn; lia).
  split; [exact Hn|].
  exact (C8_terminacion arbol_ejemplo (roca 3 0) 0 2 0 5 4 Hn).
Defined.

(** * Further properties of the tree *)

(** ** Insertion, deletion and lookup together *)

Section InsertarEliminarBuscar.

Lemma presente_In q nodo :
  presente q nodo = true
  <-> exists p, In p (inorden nodo) /\ es_igual_a p q = true.
Proof. unfold presente. apply existsb_exists. Qed.

Lemma quitar_In q l p :
  In p (quitar q l) <-> In p l /\ es_igual_a p q = false.
Proof.
  unfold quitar. rewrite filter_In, negb_true_iff. reflexivity.
Qed.

Lemma quitar_no_presente q q' l :
  Obstaculo.x q' = Obstaculo.x q -> Obstaculo.y q' = Obstaculo.y q ->
  existsb (fun p => es_igual_a p q') (quitar q l) = false.
Proof.
  intros Hx Hy.
  destruct (existsb _ (quitar q l)) eqn:He; [|reflexivity].
  apply existsb_exists in He. destruct He as (p & Hin & Heq).
  apply quitar_In in Hin. destruct Hin as [_ Hne].
  rewrite (es_igual_a_coordenadas p q' q Hx Hy) in Heq. congruence.
Qed.

(** What [insertar] leaves behind on a tree with consistent heights,
    whether or not the key was already stored. *)
Lemma insertar_deja_presente self q :
  ordenado (raiz self) -> alturas_ok (raiz self) ->
  exists b self',
    insertar self q = Ok (b, self')
    /\ ordenado (raiz self') /\ alturas_ok (raiz self')
    /\ presente q (raiz self') = true
    /\ b = negb (presente q (raiz self)).
Proof.
  intros Hord Halt. destruct (presente q (raiz self)) eqn:Hp.
  - exists false, self. rewrite (insertar_presente _ _ Hord Hp). auto.
  - destruct (insertar_ausente _ _ Hord Halt Hp)
      as (r' & Hi & Hin & Ho & Ha & _).
    exists true, (mkArbol r' (total_obstaculos self + 1)).
    cbn [raiz]. repeat split; auto.
    apply presente_In. exists q. split.
    + rewrite Hin. apply insertar_lista_In. now left.
    + apply es_igual_a_iff. auto.
Qed.

Lemma eliminar_deja_ausente self q :
  ordenado (raiz self) -> alturas_ok (raiz self) ->
  exists b self',
    eliminar self q = Ok (b, self')
    /\ ordenado (raiz self') /\ alturas_ok (raiz self')
    /\ presente q (raiz self') = false
    /\ b = presente q (raiz self).
Proof.
  intros Hord Halt. destruct (presente q (raiz self)) eqn:Hp.
  - destruct (eliminar_presente _ _ Hord Halt Hp)
      as (r' & He & Hin & Ho & Ha & _).
    exists true, (mkArbol r' (total_obstaculos self - 1)).
    cbn [raiz]. repeat split; auto.
    unfold presente. rewrite Hin. now apply quitar_no_presente.
  - exists false, self. rewrite (eliminar_ausente _ _ Hp). auto.
Qed.

End InsertarEliminarBuscar.

(** X1. On an ordered tree with consistent heights, after a successful
    [insertar] of [q] the lookup for the coordinates of [q] returns the node
    that holds [q] itself, and the stored entries are the old ones plus
    [q]. *)
Theorem X1_insertar_luego_buscar (self : ArbolAVL) (q q' : Obstaculo.t) :
  ordenado (raiz self) -> alturas_ok (raiz self) ->
  presente q (raiz self) = false ->
  Obstaculo.x q' = Obstaculo.x q -> Obstaculo.y q' = Obstaculo.y q ->
  exists self',
    insertar self q = Ok (true, self')
    /\ (exists l r h, _buscar_obstaculo (raiz self') q' = Nodo q l r h)
    /\ forall p,
        In p (recorrido_en_profundidad self')
        <-> p = q \/ In p (recorrido_en_profundidad self).
Proof.
  intros Hord Halt Hp Hx Hy.
  destruct (insertar_ausente _ _ Hord Halt Hp) as (r' & Hi & Hin & Ho & _).
  exists (mkArbol r' (total_obstaculos self + 1)).
  rewrite !recorrido_en_profundidad_inorden. cbn [raiz].
  split; [exact Hi|]. split.
  - apply _buscar_obstaculo_encuentra; [assumption| |].
    + rewrite Hin. apply insertar_lista_In. now left.
    + apply es_igual_a_iff. auto.
  - intros p. rewrite Hin. apply insertar_lista_In.
Qed.

(** X2. On an ordered tree with consistent heights, after a successful
    [eliminar] of [q] the lookup for those coordinates returns [None], and
    the stored entries are exactly the old ones whose coordinates differ
    from those of [q]. *)
Theorem X2_eliminar_luego_buscar (self : ArbolAVL) (q : Obstaculo.t) :
  ordenado (raiz self) -> alturas_ok (raiz self) ->
  presente q (raiz self) = true ->
  exists self',
    eliminar self q = Ok (true, self')
    /\ _buscar_obstaculo (raiz self') q = Ninguno
    /\ forall p,
        In p (recorrido_en_profundidad self')
        <-> In p (recorrido_en_profundidad self) /\ es_igual_a p q = false.
Proof.
  intros Hord Halt Hp.
  destruct (eliminar_presente _ _ Hord Halt Hp) as (r' & He & Hin & _).
  exists (mkArbol r' (total_obstaculos self - 1)).
  rewrite !recorrido_en_profundidad_inorden. cbn [raiz].
  split; [exact He|]. split.
  - apply ausente__buscar_obstaculo. unfold presente. rewrite Hin.
    now apply quitar_no_presente.
  - intros p. rewrite Hin. apply quitar_In.
Qed.

(** X3. After any [insertar] call on an ordered tree with consistent
    heights the key is stored: inserting the same coordinates again returns
    false and changes nothing, and deleting them returns true. *)
Theorem X3_insertar_repetido (self : ArbolAVL) (q q' : Obstaculo.t) :
  ordenado (raiz self) -> alturas_ok (raiz self) ->
  Obstaculo.x q' = Obstaculo.x q -> Obstaculo.y q' = Obstaculo.y q ->
  exists b self',
    insertar self q = Ok (b, self')
    /\ insertar self' q' = Ok (false, self')
    /\ exists self'', eliminar self' q' = Ok (true, self'').
Proof.
  intros Hord Halt Hx Hy.
  destruct (insertar_deja_presente self q Hord Halt)
    as (b & self' & Hi & Ho & Ha & Hp & _).
  assert (Hp' : presente q' (raiz self') = true).
  { unfold presente in *. rewrite <- Hp.
    now apply existsb_igual_coordenadas. }
  exists b, self'. split; [exact Hi|]. split.
  - now apply insertar_presente.
  - destruct (eliminar_presente _ _ Ho Ha Hp') as (r' & He & _). eauto.
Qed.

(** X4. After any [eliminar] call on an ordered tree with consistent
    heights the key is gone: deleting the same coordinates again returns
    false and changes nothing, and inserting them returns true. *)
Theorem X4_eliminar_repetido (self : ArbolAVL) (q q' : Obstaculo.t) :
  ordenado (raiz self) -> alturas_ok (raiz self) ->
  Obstaculo.x q' = Obstaculo.x q -> Obstaculo.y q' = Obstaculo.y q ->
  exists b self',
    eliminar self q = Ok (b, self')
    /\ eliminar self' q' = Ok (false, self')
    /\ exists self'', insertar self' q' = Ok (true, self'').
Proof.
  intros Hord Halt Hx Hy.
  destruct (eliminar_deja_ausente self q Hord Halt)
    as (b & self' & He & Ho & Ha & Hp & _).
  assert (Hp' : presente q' (raiz self') = false).
  { unfold presente in *. rewrite <- Hp.
    now apply existsb_igual_coordenadas. }
  exists b, self'. split; [exact He|]. split.
  - now apply eliminar_ausente.
  - destruct (insertar_ausente _ _ Ho Ha Hp') as (r' & Hi & _). eauto.
Qed.

(** ** Size, height and emptiness *)

(** [VisualizadorArbol._calcular_altura] (src/view/visualizador_arbol.py):
    the height recomputed from the shape of the tree. *)
Fixpoint _calcular_altura (nodo : NodoAVL) : Z :=
  match nodo with
  | Ninguno => 0
  | Nodo _ l r _ => 1 + Z.max (_calcular_altura l) (_calcular_altura r)
  end.

Section TamanoAltura.

Lemma _calcular_altura_avl nodo :
  avl nodo -> obtener_altura nodo = _calcular_altura nodo.
Proof.
  induction nodo as [|o l IHl r IHr h];
    cbn [avl obtener_altura _calcular_altura]; [reflexivity|].
  intros (Hl & Hr & -> & _). now rewrite (IHl Hl), (IHr Hr).
Qed.

Lemma potencia_mitad_siguiente a :
  0 <= a -> 2 ^ ((a + 1) / 2) <= 2 * 2 ^ (a / 2).
Proof.
  intros Ha. rewrite <- Z.pow_succ_r by (apply Z.div_pos; lia).
  apply Z.pow_le_mono_r; [lia|].
  pose proof (Z.div_le_mono a (a + 1) 2 ltac:(lia) ltac:(lia)).
  assert ((a + 1) / 2 <= (a + 2) / 2) by (apply Z.div_le_mono; lia).
  replace (a + 2) with (1 * 2 + a) in * by lia.
  rewrite Z.div_add_l in * by lia. lia.
Qed.

Lemma potencia_mitad_doble a :
  0 <= a -> 2 ^ ((a + 2) / 2) = 2 * 2 ^ (a / 2).
Proof.
  intros Ha. replace (a + 2) with (1 * 2 + a) by lia.
  rewrite Z.div_add_l by lia.
  rewrite <- Z.pow_succ_r by (apply Z.div_pos; lia).
  f_equal. lia.
Qed.

Lemma potencia_mitad_monotona a b :
  0 <= a <= b -> 2 ^ (a / 2) <= 2 ^ (b / 2).
Proof.
  intros H. apply Z.pow_le_mono_r; [lia|]. apply Z.div_le_mono; lia.
Qed.

(** A balanced tree of height [h] has at least [2 ^ (h / 2) - 1] nodes. *)
Lemma avl_tamano_cota nodo :
  avl nodo -> 2 ^ (obtener_altura nodo / 2) <= Z.of_nat (tamano nodo) + 1.
Proof.
  induction nodo as [|o l IHl r IHr h]; cbn [avl obtener_altura tamano].
  - intros _. cbn. lia.
  - intros (Hl & Hr & -> & Hb).
    specialize (IHl Hl). specialize (IHr Hr).
    pose proof (avl_altura_no_negativa _ Hl) as Pl.
    pose proof (avl_altura_no_negativa _ Hr) as Pr.
    set (hl := obtener_altura l) in *. set (hr := obtener_altura r) in *.
    rewrite Nat2Z.inj_succ, Nat2Z.inj_add.
    assert (Hcasos : hl = hr \/ hl = hr + 1 \/ hr = hl + 1) by lia.
    destruct Hcasos as [E|[E|E]].
    + replace (1 + Z.max hl hr) with (hl + 1) by lia.
      pose proof (potencia_mitad_siguiente hl Pl). rewrite <- E in IHr. lia.
    + replace (1 + Z.max hl hr) with (hr + 2) by lia.
      rewrite (potencia_mitad_doble hr Pr).
      pose proof (potencia_mitad_monotona hr hl ltac:(lia)). lia.
    + replace (1 + Z.max hl hr) with (hl + 2) by lia.
      rewrite (potencia_mitad_doble hl Pl).
      pose proof (potencia_mitad_monotona hl hr ltac:(lia)). lia.
Qed.

End TamanoAltura.

(** X5. On every tree reachable from the empty one the counter is never
    negative, and the tree is empty ([esta_vacio]) exactly when the counter
    is zero, exactly when the in-order traversal is empty; [limpiar] always
    yields such an empty tree. *)
Theorem X5_vacio_y_total (self : ArbolAVL) :
  alcanzable self ->
  0 <= obtener_total_obstaculos self
  /\ (esta_vacio self = true <-> obtener_total_obstaculos self = 0)
  /\ (esta_vacio self = true <-> recorrido_en_profundidad self = [])
  /\ esta_vacio (limpiar self) = true
  /\ obtener_total_obstaculos (limpiar self) = 0.
Proof.
  intros Halc.
  destruct (alcanzable_invariante _ Halc) as (_ & _ & Htot).
  unfold obtener_total_obstaculos, esta_vacio.
  rewrite recorrido_en_profundidad_inorden, Htot.
  destruct (raiz self) as [|o l r h]; cbn [es_nodo negb inorden].
  - cbn. repeat split; auto; lia.
  - rewrite length_app. cbn [length].
    repeat split; try discriminate; try lia.
    intros H. apply (f_equal (@length _)) in H.
    rewrite length_app in H. cbn [length] in H. lia.
Qed.

(** X6. On every tree reachable from the empty one the height is
    logarithmic in the number of entries: 2 ^ (height / 2) is at most the
    counter plus one. *)
Theorem X6_altura_logaritmica (self : ArbolAVL) :
  alcanzable self ->
  2 ^ (obtener_altura (raiz self) / 2) <= obtener_total_obstaculos self + 1.
Proof.
  intros Halc.
  destruct (alcanzable_invariante _ Halc) as (_ & Havl & Htot).
  unfold obtener_total_obstaculos. rewrite Htot, inorden_length.
  now apply avl_tamano_cota.
Qed.

(** X7. On every tree reachable from the empty one the height stored at
    the root, which [obtener_altura] returns, is the height the visualizer
    recomputes from the shape with [_calcular_altura], and the same holds at
    every node. *)
Theorem X7_altura_almacenada (self : ArbolAVL) :
  alcanzable self ->
  obtener_altura (raiz self) = _calcular_altura (raiz self)
  /\ forall n, es_subarbol n (raiz self) ->
               obtener_altura n = _calcular_altura n.
Proof.
  intros Halc.
  destruct (alcanzable_invariante _ Halc) as (_ & Havl & _).
  split; [now apply _calcular_altura_avl|].
  intros n Hn. apply _calcular_altura_avl.
  eapply avl_es_subarbol; eassumption.
Qed.

(** ** Rotations and rebalancing *)

(** X8. The two rotations undo each other on nodes with consistent stored
    heights: rotating right and then left (or left and then right) gives the
    original node back, stored heights included. *)
Theorem X8_rotaciones_inversas (nodo nodo' : NodoAVL) :
  alturas_ok nodo ->
  (rotar_derecha nodo = Ok nodo' -> rotar_izquierda nodo' = Ok nodo)
  /\ (rotar_izquierda nodo = Ok nodo' -> rotar_derecha nodo' = Ok nodo).
Proof.
  intros Halt. split.
  - destruct nodo as [|o [|ol ll lr hl] r h]; cbn [rotar_derecha];
      try discriminate.
    intros [= <-].
    destruct Halt as ((_ & _ & ->) & _ & ->).
    reflexivity.
  - destruct nodo as [|o l [|or rl rr hr] h]; cbn [rotar_izquierda];
      try discriminate.
    intros [= <-].
    destruct Halt as (_ & (_ & _ & ->) & ->).
    reflexivity.
Qed.

Lemma tamano_rotar_derecha nodo nodo' :
  rotar_derecha nodo = Ok nodo' -> tamano nodo' = tamano nodo.
Proof.
  destruct nodo as [|o [|ol ll lr hl] r h]; cbn [rotar_derecha];
    try discriminate.
  intros [= <-]. cbn [actualizar_altura tamano]. lia.
Qed.

Lemma tamano_rotar_izquierda nodo nodo' :
  rotar_izquierda nodo = Ok nodo' -> tamano nodo' = tamano nodo.
Proof.
  destruct nodo as [|o l [|or rl rr hr] h]; cbn [rotar_izquierda];
    try discriminate.
  intros [= <-]. cbn [actualizar_altura tamano]. lia.
Qed.

(** X9. Whatever [balancear] returns holds the same entries in the same
    left-to-right order as its argument, so it keeps an ordered subtree
    ordered; the same is true of each rotation.  No hypothesis on the tree
    is needed. *)
Theorem X9_balancear_conserva_entradas (nodo nodo' : NodoAVL) :
  (balancear nodo = Ok nodo' \/ rotar_derecha nodo = Ok nodo'
   \/ rotar_izquierda nodo = Ok nodo') ->
  inorden nodo' = inorden nodo
  /\ tamano nodo' = tamano nodo
  /\ (ordenado nodo -> ordenado nodo').
Proof.
  intros H.
  assert (Hin : inorden nodo' = inorden nodo).
  { destruct H as [H|[H|H]].
    - now apply inorden_balancear.
    - now apply inorden_rotar_derecha.
    - now apply inorden_rotar_izquierda. }
  split; [exact Hin|]. split.
  - rewrite <- !inorden_length. now rewrite Hin.
  - unfold ordenado. now rewrite Hin.
Qed.

(** ** The order used by the descent *)

(** X10. [es_mayor_que] and [es_igual_a] describe a strict total order on
    coordinate pairs: of "equal", "node greater" and "node smaller" exactly
    one holds, and "greater" is transitive. *)
Theorem X10_orden_total (a b c : Obstaculo.t) :
  (es_igual_a a b = true /\ es_mayor_que a b = false
   /\ es_mayor_que b a = false
   \/ es_igual_a a b = false /\ es_mayor_que a b = true
      /\ es_mayor_que b a = false
   \/ es_igual_a a b = false /\ es_mayor_que a b = false
      /\ es_mayor_que b a = true)
  /\ (es_mayor_que a b = true -> es_mayor_que b c = true ->
      es_mayor_que a c = true).
Proof.
  split.
  - destruct (es_igual_a a b) eqn:He, (es_mayor_que a b) eqn:Hab,
      (es_mayor_que b a) eqn:Hba; auto; exfalso;
      rewrite ?es_igual_a_iff, ?es_igual_a_false in He;
      rewrite ?es_mayor_que_menor, ?es_mayor_que_false in Hab;
      rewrite ?es_mayor_que_menor, ?es_mayor_que_false in Hba;
      unfold menor in *; lia.
  - rewrite !es_mayor_que_menor. intros H1 H2.
    eapply menor_trans; eassumption.
Qed.

(** ** Range queries after updates *)

(** X11. On an ordered tree with consistent heights, an entry that was just
    inserted is returned by every range query whose window contains its
    coordinates, and after [eliminar] no range query returns an entry with
    the deleted coordinates. *)
Theorem X11_rango_tras_actualizar (self : ArbolAVL) (q : Obstaculo.t)
  (x_min x_max y_min y_max : Z) :
  ordenado (raiz self) -> alturas_ok (raiz self) ->
  (presente q (raiz self) = false ->
   x_min <= Obstaculo.x q <= x_max -> y_min <= Obstaculo.y q <= y_max ->
   exists self',
     insertar self q = Ok (true, self')
     /\ In q (buscar_en_rango self' x_min x_max y_min y_max))
  /\ (exists b self',
         eliminar self q = Ok (b, self')
         /\ forall p,
             In p (buscar_en_rango self' x_min x_max y_min y_max) ->
             es_igual_a p q = false).
Proof.
  intros Hord Halt. split.
  - intros Hp Hx Hy.
    destruct (insertar_ausente _ _ Hord Halt Hp) as (r' & Hi & Hin & Ho & _).
    exists (mkArbol r' (total_obstaculos self + 1)).
    split; [exact Hi|].
    apply (Permutation_in _
             (Permutation_sym
                (_buscar_rango_recursivo_permutacion
                   x_min x_max y_min y_max r' Ho))).
    apply filter_In. split.
    + rewrite Hin. apply insertar_lista_In. now left.
    + apply esta_en_rango_iff. auto.
  - destruct (eliminar_deja_ausente self q Hord Halt)
      as (b & self' & He & Ho & _ & Hp & _).
    exists b, self'. split; [exact He|].
    intros p Hin.
    apply (Permutation_in _
             (_buscar_rango_recursivo_permutacion
                x_min x_max y_min y_max (raiz self') Ho)) in Hin.
    apply filter_In in Hin. destruct Hin as [Hin _].
    destruct (es_igual_a p q) eqn:Heq; [|reflexivity].
    assert (presente q (raiz self') = true)
      by (apply presente_In; eauto).
    congruence.
Qed.

(** ** Breadth-first traversal *)

(** Entries at depth [d] of a subtree, left to right. *)
Fixpoint nivel (d : nat) (nodo : NodoAVL) {struct nodo}
  : list Obstaculo.t :=
  match nodo with
  | Ninguno => []
  | Nodo o l r _ =>
      match d with
      | O => [o]
      | S d' => nivel d' l ++ nivel d' r
      end
  end.

(** The entries and the enqueued children of the nodes of a queue. *)
Definition raices (cola : list NodoAVL) : list Obstaculo.t :=
  flat_map (nivel 0) cola.

Definition hijos_de (cola : list NodoAVL) : list NodoAVL :=
  flat_map (fun nodo =>
              match nodo with
              | Ninguno => []
              | Nodo _ l r _ => encolar r (encolar l [])
              end) cola.

Section Anchura.

Lemma encolar_app hijo cola : encolar hijo cola = cola ++ encolar hijo [].
Proof. unfold encolar. destruct (es_nodo hijo); now rewrite ?app_nil_r. Qed.

Lemma anchura_bucle_monotono n :
  forall cola res v m,
    anchura_bucle n cola res = Some v -> (n <= m)%nat ->
    anchura_bucle m cola res = Some v.
Proof.
  induction n as [|n IH]; intros cola res v m H Hm.
  - destruct cola as [|nodo cola]; [|discriminate].
    destruct m; exact H.
  - destruct cola as [|nodo cola]; [destruct m; exact H|].
    destruct m as [|m]; [lia|].
    cbn [anchura_bucle] in *.
    destruct nodo as [|o l r h]; [exact H|].
    apply (IH _ _ _ m H). lia.
Qed.

(** Visiting a whole generation: the loop pops the nodes of [q1] one by
    one, appending their entries to the result and their children behind
    what was already pending. *)
Lemma anchura_bucle_generacion q1 :
  forall pend res n v,
    Forall (fun c => es_nodo c = true) q1 ->
    anchura_bucle n (pend ++ hijos_de q1) (res ++ raices q1) = Some v ->
    anchura_bucle (length q1 + n) (q1 ++ pend) res = Some v.
Proof.
  induction q1 as [|nodo q1 IH]; intros pend res n v Hq H.
  - cbn in *. now rewrite !app_nil_r in H.
  - inversion Hq as [|? ? Hnodo Hq']; subst.
    destruct nodo as [|o l r h]; [discriminate|].
    cbn [length Nat.add app anchura_bucle]. cbv zeta.
    rewrite (encolar_app l), (encolar_app r), <- !app_assoc.
    apply (IH (pend ++ encolar l [] ++ encolar r []) (res ++ [o]) n v Hq').
    cbn [hijos_de raices flat_map nivel] in H.
    fold (hijos_de q1) in H. fold (raices q1) in H.
    rewrite (encolar_app r (encolar l [])) in H.
    rewrite <- !app_assoc in *. exact H.
Qed.

Lemma hijos_de_nodos cola : Forall (fun c => es_nodo c = true) (hijos_de cola).
Proof.
  induction cola as [|nodo cola IH]; [constructor|].
  cbn [hijos_de flat_map]. apply Forall_app. split; [|exact IH].
  destruct nodo as [|o l r h]; [constructor|].
  apply encolar_nodos, encolar_nodos. constructor.
Qed.

Lemma hijos_de_tamano k cola :
  Forall (fun c => (tamano c <= S k)%nat) cola ->
  Forall (fun c => (tamano c <= k)%nat) (hijos_de cola).
Proof.
  induction 1 as [|nodo cola Hn _ IH]; [constructor|].
  cbn [hijos_de flat_map]. apply Forall_app. split; [|exact IH].
  destruct nodo as [|o l r h]; [constructor|].
  cbn [tamano] in Hn. unfold encolar.
  destruct (es_nodo l), (es_nodo r); cbn [app];
    repeat constructor; lia.
Qed.

Lemma nivel_siguiente d cola :
  flat_map (nivel (S d)) cola = flat_map (nivel d) (hijos_de cola).
Proof.
  induction cola as [|nodo cola IH]; [reflexivity|].
  cbn [flat_map hijos_de]. fold (hijos_de cola).
  rewrite flat_map_app, IH. f_equal.
  destruct nodo as [|o l r h]; [reflexivity|].
  cbn [nivel]. unfold encolar.
  destruct l, r; cbn [es_nodo app flat_map nivel];
    rewrite ?app_nil_r; reflexivity.
Qed.

Lemma flat_map_seq_siguiente (f : nat -> list Obstaculo.t) k :
  flat_map f (seq 0 (S k)) = f O ++ flat_map (fun d => f (S d)) (seq 0 k).
Proof.
  cbn [seq flat_map]. f_equal.
  rewrite <- seq_shift. generalize (seq 0 k) as ds.
  induction ds as [|d ds IH]; cbn [map flat_map]; [reflexivity|].
  now rewrite IH.
Qed.

(** Run long enough, the loop appends the queued subtrees level by
    level. *)
Lemma anchura_bucle_niveles k :
  forall cola res,
    Forall (fun c => es_nodo c = true) cola ->
    Forall (fun c => (tamano c <= k)%nat) cola ->
    exists n,
      anchura_bucle n cola res
      = Some (Ok (res ++ flat_map (fun d => flat_map (nivel d) cola)
                           (seq 0 k))).
Proof.
  induction k as [|k IH]; intros cola res Hn Ht.
  - destruct cola as [|nodo cola].
    + exists O. cbn. now rewrite app_nil_r.
    + inversion Hn; subst. inversion Ht; subst.
      destruct nodo; [discriminate|]. cbn [tamano] in *. lia.
  - destruct (IH (hijos_de cola) (res ++ raices cola)
                (hijos_de_nodos cola) (hijos_de_tamano k cola Ht))
      as (n & Hrun).
    exists (length cola + n)%nat.
    pose proof (anchura_bucle_generacion cola [] res n
                  (Ok (res ++ flat_map (fun d => flat_map (nivel d) cola)
                                (seq 0 (S k)))) Hn) as Hgen.
    rewrite app_nil_r in Hgen. apply Hgen. clear Hgen.
    cbn [app]. rewrite Hrun. f_equal. f_equal.
    rewrite <- app_assoc. f_equal.
    rewrite (flat_map_seq_siguiente (fun d => flat_map (nivel d) cola) k).
    unfold raices. f_equal.
    apply flat_map_ext. intros d. symmetry. apply nivel_siguiente.
Qed.

(** Every entry visited by the loop comes from the queued subtrees, each
    exactly once. *)
Lemma anchura_bucle_permutacion n :
  forall cola res salida_,
    anchura_bucle n cola res = Some (Ok salida_) ->
    exists visitados,
      salida_ = res ++ visitados
      /\ Permutation visitados (flat_map inorden cola).
Proof.
  induction n as [|n IH]; intros cola res out H.
  - destruct cola as [|nodo cola]; [|discriminate].
    injection H as <-. exists []. now rewrite app_nil_r.
  - destruct cola as [|nodo cola].
    + injection H as <-. exists []. now rewrite app_nil_r.
    + cbn [anchura_bucle] in H.
      destruct nodo as [|o l r h]; [discriminate|]. cbv zeta in H.
      destruct (IH _ _ _ H) as (vis & -> & Hperm).
      exists (o :: vis). split; [now rewrite <- app_assoc|].
      cbn [flat_map inorden].
      rewrite (encolar_app r), (encolar_app l), !flat_map_app in Hperm.
      assert (Hl : flat_map inorden (encolar l []) = inorden l)
        by (unfold encolar; destruct l; cbn; now rewrite ?app_nil_r).
      assert (Hr : flat_map inorden (encolar r []) = inorden r)
        by (unfold encolar; destruct r; cbn; now rewrite ?app_nil_r).
      rewrite Hl, Hr in Hperm.
      rewrite <- app_assoc. cbn [app].
      apply Permutation_cons_app.
      etransitivity; [exact Hperm|].
      rewrite <- app_assoc, (app_assoc (inorden l)).
      apply Permutation_app_comm.
Qed.

Lemma recorrido_en_anchura_ejecucion self :
  es_nodo (raiz self) = true ->
  anchura_bucle (tamano (raiz self)) [raiz self] []
  = Some (Ok (recorrido_en_anchura self)).
Proof.
  intros Hn. unfold recorrido_en_anchura, recorrido_en_anchura_comb.
  destruct (raiz self) as [|o l r h] eqn:Hr; [discriminate|].
  destruct (anchura_bucle_total (tamano (Nodo o l r h)) [Nodo o l r h] [])
    as (vis & He & _).
  - repeat constructor.
  - cbn [peso]. lia.
  - now rewrite He.
Qed.

End Anchura.

(** X12. On any tree [recorrido_en_anchura] lists the entries level by
    level from the root down, each level left to right; the queue loop
    returns that list whenever its step budget exceeds the number of
    nodes. *)
Theorem X12_anchura_por_niveles (self : ArbolAVL) :
  recorrido_en_anchura self
  = flat_map (fun d => nivel d (raiz self)) (seq 0 (tamano (raiz self)))
  /\ forall n, (tamano (raiz self) < n)%nat ->
       recorrido_en_anchura_comb n self
       = Some (Ok (flat_map (fun d => nivel d (raiz self))
                     (seq 0 (tamano (raiz self))))).
Proof.
  assert (Hniv : recorrido_en_anchura self
                 = flat_map (fun d => nivel d (raiz self))
                     (seq 0 (tamano (raiz self)))).
  { destruct (es_nodo (raiz self)) eqn:Hn.
    - pose proof (recorrido_en_anchura_ejecucion self Hn) as Hrun.
      destruct (anchura_bucle_niveles (tamano (raiz self)) [raiz self] [])
        as (n & Hniv).
      + now repeat constructor.
      + repeat constructor.
      + apply (anchura_bucle_monotono _ _ _ _
                 (Nat.max n (tamano (raiz self)))) in Hrun; [|lia].
        apply (anchura_bucle_monotono _ _ _ _
                 (Nat.max n (tamano (raiz self)))) in Hniv; [|lia].
        rewrite Hrun in Hniv. injection Hniv as ->. cbn [app].
        apply flat_map_ext. intros d. cbn [flat_map]. apply app_nil_r.
    - unfold recorrido_en_anchura, recorrido_en_anchura_comb.
      destruct (raiz self); [reflexivity|discriminate]. }
  split; [exact Hniv|].
  intros n Hn. rewrite <- Hniv.
  destruct (es_nodo (raiz self)) eqn:Hnodo.
  - pose proof (recorrido_en_anchura_ejecucion self Hnodo) as Hrun.
    unfold recorrido_en_anchura_comb.
    destruct (raiz self) as [|o l r h] eqn:Hr; [discriminate|].
    apply (anchura_bucle_monotono _ _ _ _ n Hrun). lia.
  - unfold recorrido_en_anchura, recorrido_en_anchura_comb.
    destruct (raiz self); [reflexivity|discriminate].
Qed.

(** X13. On any tree [recorrido_en_anchura] visits every stored entry
    exactly once: it is a permutation of [recorrido_en_profundidad]; on a
    non-empty tree it starts with the entry at the root. *)
Theorem X13_anchura_permutacion (self : ArbolAVL) :
  Permutation (recorrido_en_anchura self) (recorrido_en_profundidad self)
  /\ forall o l r h,
      raiz self = Nodo o l r h ->
      exists resto, recorrido_en_anchura self = o :: resto.
Proof.
  rewrite recorrido_en_profundidad_inorden.
  destruct (es_nodo (raiz self)) eqn:Hn.
  - pose proof (recorrido_en_anchura_ejecucion self Hn) as Hrun.
    split.
    + destruct (anchura_bucle_permutacion _ _ _ _ Hrun) as (vis & -> & Hp).
      cbn [app flat_map] in *. now rewrite app_nil_r in Hp.
    + intros o l r h Hr. rewrite Hr in Hrun.
      cbn [tamano anchura_bucle] in Hrun. cbv zeta in Hrun.
      destruct (anchura_bucle_permutacion _ _ _ _ Hrun) as (vis & -> & _).
      exists vis. reflexivity.
  - unfold recorrido_en_anchura, recorrido_en_anchura_comb.
    destruct (raiz self); [|discriminate].
    split; [constructor|discriminate].
Qed.

(** * Obstacles and the cart *)

(** ** obstaculo.py: the remaining methods *)

(** The dictionary returned by [obtener_rectangulo_colision], keys ['x'],
    ['y'], ['ancho'], ['alto']. *)
Record Rectangulo : Type := mkRectangulo
  { rect_x : Z; rect_y : Z; rect_ancho : Z; rect_alto : Z }.

Definition es_barrera (self : Obstaculo.t) : bool :=
  Obstaculo.es_BARRERA (Obstaculo.tipo self).

Definition se_puede_saltar (self : Obstaculo.t) : bool :=
  Obstaculo.es_BARRERA (Obstaculo.tipo self).

(** [DAÑO_POR_TIPO.get(self.tipo, 0)]: the table has a row for every
    member of the enumeration. *)
Definition obtener_dano (self : Obstaculo.t) : Z :=
  match Obstaculo.tipo self with
  | Obstaculo.ROCA => 20
  | Obstaculo.CONO => 10
  | Obstaculo.HUECO => 15
  | Obstaculo.ACEITE => 5
  | Obstaculo.BARRERA => 25
  end.

Definition Obstaculo_obtener_rectangulo_colision (self : Obstaculo.t)
  : Rectangulo :=
  mkRectangulo (Obstaculo.x self) (Obstaculo.y self)
    (Obstaculo.ancho self) (Obstaculo.alto self).

(** [__hash__] is [hash((self.x, self.y))]; the built-in hash of a pair of
    integers is left abstract. *)
Definition Obstaculo_hash (hash_tupla : Z * Z -> Z) (self : Obstaculo.t) : Z :=
  hash_tupla (Obstaculo.x self, Obstaculo.y self).

(** ** carrito.py *)

From Stdlib Require String.

Module Carrito.

Import String.

Inductive EstadoCarrito : Type :=
  NORMAL | SALTANDO | COLISIONANDO | INVULNERABLE.

Definition es_SALTANDO (e : EstadoCarrito) : bool :=
  match e with SALTANDO => true | _ => false end.

Record t : Type := mk
  { x : Z;
    y : Z;
    energia_actual : Z;
    energia_maxima : Z;
    estado : EstadoCarrito;
    velocidad_x : Z;
    velocidad_y : Z;
    altura_salto : Z;
    tiempo_salto : Z;
    duracion_salto : Z;
    ancho : Z;
    alto : Z;
    color_normal : string;
    color_saltando : string;
    color_actual : string }.

(** [Carrito.__init__]; the defaults are 50, 2 and 100. *)
Definition init (x_inicial y_inicial energia_maxima : Z) : t :=
  mk x_inicial y_inicial energia_maxima energia_maxima NORMAL
     5 0 50 0 20 40 30 "azul" "amarillo" "azul".

Definition mover_automaticamente (self : t) : t :=
  mk (x self + velocidad_x self) (y self) (energia_actual self)
     (energia_maxima self) (estado self) (velocidad_x self)
     (velocidad_y self) (altura_salto self) (tiempo_salto self)
     (duracion_salto self) (ancho self) (alto self) (color_normal self)
     (color_saltando self) (color_actual self).

Definition con_y (self : t) (y' : Z) : t :=
  mk (x self) y' (energia_actual self)
     (energia_maxima self) (estado self) (velocidad_x self)
     (velocidad_y self) (altura_salto self) (tiempo_salto self)
     (duracion_salto self) (ancho self) (alto self) (color_normal self)
     (color_saltando self) (color_actual self).

Definition mover_arriba (self : t) : t :=
  if y self <? 5 then con_y self (y self + 1) else self.

Definition mover_abajo (self : t) : t :=
  if y self >? 0 then con_y self (y self - 1) else self.

Definition saltar (self : t) : t :=
  if negb (es_SALTANDO (estado self))
  then mk (x self) (y self) (energia_actual self)
          (energia_maxima self) SALTANDO (velocidad_x self)
          (velocidad_y self) (altura_salto self) 0
          (duracion_salto self) (ancho self) (alto self) (color_normal self)
          (color_saltando self) (color_saltando self)
  else self.

Definition con_energia (self : t) (e : Z) : t :=
  mk (x self) (y self) e
     (energia_maxima self) (estado self) (velocidad_x self)
     (velocidad_y self) (altura_salto self) (tiempo_salto self)
     (duracion_salto self) (ancho self) (alto self) (color_normal self)
     (color_saltando self) (color_actual self).

Definition esta_vivo (self : t) : bool := energia_actual self >? 0.


(** [recibir_daño] returns the boolean together with the updated cart. *)
Definition recibir_dano (self : t) (cantidad_dano : Z) : bool * t :=
  let self :=
    if cantidad_dano >? 0
    then con_energia self (Z.max 0 (energia_actual self - cantidad_dano))
    else self in
  (energia_actual self >? 0, self).

Definition obtener_rectangulo_colision (self : t) : Rectangulo :=
  mkRectangulo (x self) (y self) (ancho self) (alto self).

(** [colisiona_con]; the [print] calls do not affect the result. *)
Definition colisiona_con (self : t) (obstaculo : Obstaculo.t) : bool :=
  let carrito_rect := obtener_rectangulo_colision self in
  let obstaculo_rect := Obstaculo_obtener_rectangulo_colision obstaculo in
  let colision_x :=
    (rect_x carrito_rect <? rect_x obstaculo_rect + rect_ancho obstaculo_rect)
    && (rect_x carrito_rect + rect_ancho carrito_rect >? rect_x obstaculo_rect)
  in
  let colision_y := rect_y carrito_rect =? rect_y obstaculo_rect in
  colision_x && colision_y.

Definition reiniciar (self : t) (x_inicial y_inicial : Z) : t :=
  mk x_inicial y_inicial (energia_maxima self)
     (energia_maxima self) NORMAL (velocidad_x self)
     0 (altura_salto self) 0
     (duracion_salto self) (ancho self) (alto self) (color_normal self)
     (color_saltando self) (color_normal self).

(** [actualizar_salto].  The two jump heights are computed in floating
    point and truncated by [int]; they are left abstract as functions of
    [altura_salto], the incremented [tiempo_salto] and [duracion_salto].
    [None] is the [ZeroDivisionError] of [tiempo_salto / duracion_salto]. *)
Definition actualizar_salto (altura_actual_de altura_anterior_de : Z -> Z -> Z -> Z)
  (self : t) : option t :=
  let tiempo := tiempo_salto self + 1 in
  if duracion_salto self =? 0 then None
  else
    let altura_actual :=
      altura_actual_de (altura_salto self) tiempo (duracion_salto self) in
    let velocidad :=
      if tiempo =? 0 then 0
      else altura_actual
           - altura_anterior_de (altura_salto self) tiempo
               (duracion_salto self) in
    if tiempo >=? duracion_salto self
    then Some (mk (x self) (y self) (energia_actual self)
                 (energia_maxima self) NORMAL (velocidad_x self)
                 0 (altura_salto self) tiempo
                 (duracion_salto self) (ancho self) (alto self)
                 (color_normal self) (color_saltando self)
                 (color_normal self))
    else Some (mk (x self) (y self) (energia_actual self)
                 (energia_maxima self) (estado self) (velocidad_x self)
                 velocidad (altura_salto self) tiempo
                 (duracion_salto self) (ancho self) (alto self)
                 (color_normal self) (color_saltando self)
                 (color_actual self)).

(** Calls of the player on the lane keys. *)
Inductive movimiento : Type := Arriba | Abajo.

Definition mover (self : t) (m : movimiento) : t :=
  match m with Arriba => mover_arriba self | Abajo => mover_abajo self end.


(** A sequence of hits. *)
Fixpoint recibir_danos (self : t) (danos : list Z) : t :=
  match danos with
  | [] => self
  | d :: danos' => recibir_danos (snd (recibir_dano self d)) danos'
  end.

End Carrito.

(** ** Properties of obstacles and the cart *)

Section CarritoLemas.

Lemma con_y_mismo c : Carrito.con_y c (Carrito.y c) = c.
Proof. destruct c. reflexivity. Qed.

Lemma con_y_con_y c a b : Carrito.con_y (Carrito.con_y c a) b = Carrito.con_y c b.
Proof. reflexivity. Qed.

Lemma mover_solo_y c m :
  Carrito.mover c m = Carrito.con_y c (Carrito.y (Carrito.mover c m)).
Proof.
  destruct m; cbn [Carrito.mover];
    unfold Carrito.mover_arriba, Carrito.mover_abajo;
    match goal with |- context [if ?b then _ else _] => destruct b end;
    cbn [Carrito.con_y Carrito.y]; try reflexivity;
    symmetry; apply con_y_mismo.
Qed.

Lemma mover_en_carriles c m :
  0 <= Carrito.y c <= 5 -> 0 <= Carrito.y (Carrito.mover c m) <= 5.
Proof.
  intros H. destruct m; cbn [Carrito.mover];
    unfold Carrito.mover_arriba, Carrito.mover_abajo.
  - destruct (Z.ltb_spec (Carrito.y c) 5); cbn [Carrito.con_y Carrito.y]; lia.
  - destruct (Z.gtb_spec (Carrito.y c) 0); cbn [Carrito.con_y Carrito.y]; lia.
Qed.

Lemma recibir_dano_energia c d :
  0 <= Carrito.energia_actual c ->
  0 <= Carrito.energia_actual (snd (Carrito.recibir_dano c d))
    <= Carrito.energia_actual c.
Proof.
  intros H. unfold Carrito.recibir_dano. cbv zeta. cbn [snd].
  destruct (Z.gtb_spec d 0);
    cbn [Carrito.con_energia Carrito.energia_actual]; lia.
Qed.

Lemma recibir_dano_muerto c d :
  Carrito.esta_vivo c = false ->
  Carrito.esta_vivo (snd (Carrito.recibir_dano c d)) = false.
Proof.
  unfold Carrito.esta_vivo, Carrito.recibir_dano. cbv zeta. cbn [snd].
  rewrite !Z.gtb_ltb, !Z.ltb_ge. intros H.
  destruct (Z.ltb_spec 0 d);
    cbn [Carrito.con_energia Carrito.energia_actual]; lia.
Qed.



End CarritoLemas.

(** X14. Whatever sequence of lane keys is pressed, a cart that starts in
    lanes 0..5 stays in lanes 0..5 and nothing but its lane changes; a move
    up followed by a move down (or down then up) away from the border
    returns the cart to where it was. *)
Theorem X14_carriles (c : Carrito.t) (ms : list Carrito.movimiento) :
  0 <= Carrito.y c <= 5 ->
  0 <= Carrito.y (fold_left Carrito.mover ms c) <= 5
  /\ fold_left Carrito.mover ms c
     = Carrito.con_y c (Carrito.y (fold_left Carrito.mover ms c))
  /\ (Carrito.y c < 5 ->
      Carrito.mover_abajo (Carrito.mover_arriba c) = c)
  /\ (0 < Carrito.y c ->
      Carrito.mover_arriba (Carrito.mover_abajo c) = c).
Proof.
  intros Hy. split; [|split; [|split]].
  - revert c Hy. induction ms as [|m ms IH]; intros c Hy; [exact Hy|].
    cbn [fold_left]. apply IH. now apply mover_en_carriles.
  - revert c Hy. induction ms as [|m ms IH]; intros c Hy.
    + symmetry. apply con_y_mismo.
    + cbn [fold_left].
      rewrite (IH _ (mover_en_carriles c m Hy)) at 1.
      rewrite (mover_solo_y c m) at 1. apply con_y_con_y.
  - intros H. destruct c as [cx cy ce cm cs vx vy ha ts ds ca cl c1 c2 c3].
    cbn [Carrito.y] in *.
    unfold Carrito.mover_arriba. cbn [Carrito.y].
    destruct (Z.ltb_spec cy 5); [|lia].
    unfold Carrito.mover_abajo, Carrito.con_y. cbn.
    destruct (Z.gtb_spec (cy + 1) 0); [|lia].
    f_equal. lia.
  - intros H. destruct c as [cx cy ce cm cs vx vy ha ts ds ca cl c1 c2 c3].
    cbn [Carrito.y] in *.
    unfold Carrito.mover_abajo. cbn [Carrito.y].
    destruct (Z.gtb_spec cy 0); [|lia].
    unfold Carrito.mover_arriba, Carrito.con_y. cbn.
    destruct (Z.ltb_spec (cy - 1) 5); [|lia].
    f_equal. lia.
Qed.

(** X15. [recibir_daño] on a cart with non-negative integer energy: the
    boolean returned says whether the cart is still alive; a damage that is
    not positive changes nothing; and over any sequence of hits the energy
    stays between 0 and its initial value, and a dead cart stays dead. *)
Theorem X15_recibir_dano (c : Carrito.t) (d : Z) (danos : list Z) :
  0 <= Carrito.energia_actual c ->
  fst (Carrito.recibir_dano c d)
  = Carrito.esta_vivo (snd (Carrito.recibir_dano c d))
  /\ (d <= 0 -> snd (Carrito.recibir_dano c d) = c)
  /\ (0 < d ->
      Carrito.energia_actual (snd (Carrito.recibir_dano c d))
      = Z.max 0 (Carrito.energia_actual c - d))
  /\ 0 <= Carrito.energia_actual (Carrito.recibir_danos c danos)
       <= Carrito.energia_actual c
  /\ (Carrito.esta_vivo c = false ->
      Carrito.esta_vivo (Carrito.recibir_danos c danos) = false).
Proof.
  intros He. split; [reflexivity|]. split; [|split; [|split]].
  - intros Hd. unfold Carrito.recibir_dano. cbv zeta.
    destruct (Z.gtb_spec d 0); [lia|reflexivity].
  - intros Hd. unfold Carrito.recibir_dano. cbv zeta.
    destruct (Z.gtb_spec d 0); [reflexivity|lia].
  - revert c He. induction danos as [|d' danos IH]; intros c He;
      cbn [Carrito.recibir_danos]; [lia|].
    pose proof (recibir_dano_energia c d' He) as H1.
    specialize (IH _ (proj1 H1)). lia.
  - revert c He. induction danos as [|d' danos IH]; intros c He Hm;
      cbn [Carrito.recibir_danos]; [exact Hm|].
    apply IH.
    + apply recibir_dano_energia, He.
    + now apply recibir_dano_muerto.
Qed.

(** X16. Every obstacle hurts: its damage is between 5 and 25, it is 25
    exactly for barriers (the only obstacles that can be jumped), and a live
    cart that receives the damage of any obstacle ends with strictly less
    energy. *)
Theorem X16_todo_obstaculo_dana (c : Carrito.t) (o : Obstaculo.t) :
  5 <= obtener_dano o <= 25
  /\ (obtener_dano o = 25 <-> es_barrera o = true)
  /\ se_puede_saltar o = es_barrera o
  /\ (Carrito.esta_vivo c = true ->
      Carrito.energia_actual (snd (Carrito.recibir_dano c (obtener_dano o)))
      < Carrito.energia_actual c).
Proof.
  unfold obtener_dano, es_barrera, se_puede_saltar, Carrito.esta_vivo,
    Carrito.recibir_dano.
  cbv zeta.
  destruct (Obstaculo.tipo o); cbn [Obstaculo.es_BARRERA snd Z.gtb Z.compare];
    cbn [Carrito.con_energia Carrito.energia_actual];
    rewrite Z.gtb_ltb, Z.ltb_lt;
    repeat split; try lia; try discriminate; try reflexivity.
Qed.

(** X17. The range query finds every collision: if a stored obstacle of
    width at most [W] collides with the cart, it is in the same lane and it
    is returned by [buscar_en_rango] on the window
    [x - W, x + ancho] x [y, y] around the cart; an obstacle in another lane
    never collides. *)
Theorem X17_colision_en_rango (self : ArbolAVL) (c : Carrito.t)
  (o : Obstaculo.t) (W : Z) :
  ordenado (raiz self) ->
  In o (recorrido_en_profundidad self) ->
  Obstaculo.ancho o <= W ->
  (Carrito.colisiona_con c o = true ->
   Obstaculo.y o = Carrito.y c
   /\ In o (buscar_en_rango self (Carrito.x c - W)
              (Carrito.x c + Carrito.ancho c) (Carrito.y c) (Carrito.y c)))
  /\ (Obstaculo.y o <> Carrito.y c -> Carrito.colisiona_con c o = false).
Proof.
  intros Hord Hin HW.
  assert (Hcol : Carrito.colisiona_con c o = true ->
                 Carrito.x c < Obstaculo.x o + Obstaculo.ancho o
                 /\ Carrito.x c + Carrito.ancho c > Obstaculo.x o
                 /\ Carrito.y c = Obstaculo.y o).
  { unfold Carrito.colisiona_con. cbv zeta.
    cbn [Carrito.obtener_rectangulo_colision
           Obstaculo_obtener_rectangulo_colision
           rect_x rect_y rect_ancho rect_alto].
    rewrite !andb_true_iff, Z.ltb_lt, Z.gtb_ltb, Z.ltb_lt, Z.eqb_eq. lia. }
  split.
  - intros H. destruct (Hcol H) as (H1 & H2 & H3).
    split; [lia|].
    rewrite recorrido_en_profundidad_inorden in Hin.
    apply (Permutation_in _
             (Permutation_sym
                (_buscar_rango_recursivo_permutacion
                   _ _ _ _ (raiz self) Hord))).
    apply filter_In. split; [assumption|].
    apply esta_en_rango_iff. lia.
  - intros Hy.
    destruct (Carrito.colisiona_con c o) eqn:H; [|reflexivity].
    destruct (Hcol eq_refl) as (_ & _ & H3). congruence.
Qed.

(** X18. [Obstaculo.__eq__] is an equivalence relation that looks only at
    the coordinates (it agrees with the node comparison [es_igual_a]), and
    obstacles that are equal have the same [__hash__], whatever the built-in
    hash of a pair is. *)
Theorem X18_eq_y_hash (hash_tupla : Z * Z -> Z) (a b c : Obstaculo.t) :
  Obstaculo.eq a a = true
  /\ Obstaculo.eq a b = Obstaculo.eq b a
  /\ (Obstaculo.eq a b = true -> Obstaculo.eq b c = true ->
      Obstaculo.eq a c = true)
  /\ Obstaculo.eq a b = es_igual_a a b
  /\ (Obstaculo.eq a b = true ->
      Obstaculo_hash hash_tupla a = Obstaculo_hash hash_tupla b).
Proof.
  unfold Obstaculo.eq, es_igual_a, Obstaculo_hash.
  split; [now rewrite !Z.eqb_refl|].
  split; [now rewrite (Z.eqb_sym (Obstaculo.x a)), (Z.eqb_sym (Obstaculo.y a))|].
  split; [|split; [reflexivity|]].
  - rewrite !andb_true_iff, !Z.eqb_eq. intros [-> ->] [-> ->]. auto.
  - rewrite andb_true_iff, !Z.eqb_eq. intros [-> ->]. reflexivity.
Qed.


(** * The tree visualizer (src/view/visualizador_arbol.py) *)

Module Visualizador.

(** The fields the modelled methods read or write; the colour constants of
    [__init__] are kept as triples. *)
Record t : Type := mk
  { ancho : Z;
    alto : Z;
    radio_nodo : Z;
    espaciado_nivel : Z;
    color_nodo : Z * Z * Z;
    color_nodo_seleccionado : Z * Z * Z;
    color_conexion : Z * Z * Z;
    color_texto : Z * Z * Z;
    color_recorrido : Z * Z * Z;
    nodo_seleccionado : NodoAVL;
    recorrido_actual : list Obstaculo.t;
    paso_recorrido_actual : Z;
    animando_recorrido : bool }.

(** [VisualizadorArbol.__init__]; both arguments default to 400. *)
Definition init (ancho alto : Z) : t :=
  mk ancho alto 25 60 (100, 150, 255) (255, 100, 100) (50, 50, 50)
     (255, 255, 255) (255, 255, 0) Ninguno [] 0 false.

(** [iniciar_animacion_recorrido]; the [print] is not modelled. *)
Definition iniciar_animacion_recorrido (self : t)
  (recorrido : list Obstaculo.t) : t :=
  mk (ancho self) (alto self) (radio_nodo self) (espaciado_nivel self)
     (color_nodo self) (color_nodo_seleccionado self) (color_conexion self)
     (color_texto self) (color_recorrido self) (nodo_seleccionado self)
     recorrido 0 true.

Definition iniciar_recorrido_anchura (self : t) (arbol_avl : ArbolAVL) : t :=
  iniciar_animacion_recorrido self (recorrido_en_anchura arbol_avl).

Definition iniciar_recorrido_profundidad (self : t) (arbol_avl : ArbolAVL)
  : t :=
  iniciar_animacion_recorrido self (recorrido_en_profundidad arbol_avl).

(** Truth value of a list. *)
Definition no_vacia (l : list Obstaculo.t) : bool :=
  match l with [] => false | _ :: _ => true end.

(** [actualizar_animacion_recorrido] returns its boolean together with the
    updated visualizer. *)
Definition actualizar_animacion_recorrido (self : t) : bool * t :=
  if negb (animando_recorrido self) || negb (no_vacia (recorrido_actual self))
  then (false, self)
  else
    let paso := paso_recorrido_actual self + 1 in
    if paso >=? Z.of_nat (length (recorrido_actual self))
    then (false,
          mk (ancho self) (alto self) (radio_nodo self) (espaciado_nivel self)
             (color_nodo self) (color_nodo_seleccionado self)
             (color_conexion self) (color_texto self) (color_recorrido self)
             (nodo_seleccionado self) (recorrido_actual self) paso false)
    else (true,
          mk (ancho self) (alto self) (radio_nodo self) (espaciado_nivel self)
             (color_nodo self) (color_nodo_seleccionado self)
             (color_conexion self) (color_texto self) (color_recorrido self)
             (nodo_seleccionado self) (recorrido_actual self) paso
             (animando_recorrido self)).

(** [k] frames of the animation. *)
Fixpoint avanzar (k : nat) (self : t) : t :=
  match k with
  | O => self
  | S k' => avanzar k' (snd (actualizar_animacion_recorrido self))
  end.



End Visualizador.


Section VisualizadorLemas.

Import Visualizador.

Lemma recorrido_en_anchura_length self :
  length (recorrido_en_anchura self) = tamano (raiz self).
Proof.
  destruct (es_nodo (raiz self)) eqn:Hn.
  - pose proof (recorrido_en_anchura_ejecucion self Hn) as Hrun.
    destruct (anchura_bucle_permutacion _ _ _ _ Hrun) as (vis & -> & Hp).
    cbn [app flat_map] in *. rewrite app_nil_r in Hp.
    rewrite (Permutation_length Hp). apply inorden_length.
  - unfold recorrido_en_anchura, recorrido_en_anchura_comb.
    destruct (raiz self); [reflexivity|discriminate].
Qed.

Lemma avanzar_siguiente k :
  forall w,
    avanzar (S k) w = snd (actualizar_animacion_recorrido (avanzar k w)).
Proof.
  induction k as [|k IH]; intros w; [reflexivity|].
  change (avanzar (S (S k)) w)
    with (avanzar (S k) (snd (actualizar_animacion_recorrido w))).
  now rewrite IH.
Qed.

(** One frame of a running animation. *)
Lemma actualizar_animacion_en_curso w p :
  animando_recorrido w = true ->
  recorrido_actual w <> [] ->
  paso_recorrido_actual w = Z.of_nat p ->
  fst (actualizar_animacion_recorrido w)
  = (S p <? length (recorrido_actual w))%nat
  /\ recorrido_actual (snd (actualizar_animacion_recorrido w))
     = recorrido_actual w
  /\ paso_recorrido_actual (snd (actualizar_animacion_recorrido w))
     = Z.of_nat (S p)
  /\ animando_recorrido (snd (actualizar_animacion_recorrido w))
     = (S p <? length (recorrido_actual w))%nat.
Proof.
  intros Ha Hne Hp. unfold actualizar_animacion_recorrido.
  rewrite Ha, Hp. cbv zeta.
  assert (Hnv : no_vacia (recorrido_actual w) = true)
    by (destruct (recorrido_actual w); [contradiction|reflexivity]).
  rewrite Hnv. cbn [negb orb].
  destruct (Z.geb_spec (Z.of_nat p + 1)
              (Z.of_nat (length (recorrido_actual w)))) as [H|H];
    destruct (Nat.ltb_spec (S p) (length (recorrido_actual w))) as [H'|H'];
    try lia;
    cbn [fst snd recorrido_actual paso_recorrido_actual animando_recorrido];
    repeat split; auto; lia.
Qed.

(** A stopped animation ignores further frames. *)
Lemma actualizar_animacion_detenida w :
  animando_recorrido w = false \/ recorrido_actual w = [] ->
  actualizar_animacion_recorrido w = (false, w).
Proof.
  intros [H|H]; unfold actualizar_animacion_recorrido; rewrite H;
    [reflexivity|]. cbn [no_vacia negb]. now rewrite orb_true_r.
Qed.

(** The animation over a non-empty traversal, frame by frame. *)
Lemma avanzar_animacion v recorrido k :
  recorrido <> [] ->
  recorrido_actual (avanzar k (iniciar_animacion_recorrido v recorrido))
  = recorrido
  /\ paso_recorrido_actual
       (avanzar k (iniciar_animacion_recorrido v recorrido))
     = Z.of_nat (Nat.min k (length recorrido))
  /\ animando_recorrido (avanzar k (iniciar_animacion_recorrido v recorrido))
     = (k <? length recorrido)%nat.
Proof.
  intros Hne.
  induction k as [|k IH].
  - cbn [avanzar iniciar_animacion_recorrido recorrido_actual
           paso_recorrido_actual animando_recorrido].
    destruct recorrido; [contradiction|]. repeat split.
  - rewrite avanzar_siguiente.
    destruct IH as (Hr & Hp & Ha).
    destruct (Nat.ltb_spec k (length recorrido)) as [Hlt|Hge].
    + rewrite Nat.min_l in Hp by lia.
      assert (Hne' : recorrido_actual
                       (avanzar k (iniciar_animacion_recorrido v recorrido))
                     <> []) by (now rewrite Hr).
      destruct (actualizar_animacion_en_curso _ k Ha Hne' Hp)
        as (_ & H1 & H2 & H3).
      rewrite H1, H2, H3, Hr. repeat split. f_equal. lia.
    + rewrite (actualizar_animacion_detenida _ (or_introl Ha)).
      cbn [snd]. rewrite Hr, Hp, Ha. repeat split.
      * f_equal. lia.
      * symmetry. apply Nat.ltb_ge. lia.
Qed.

End VisualizadorLemas.

(** X20. Animating a traversal of a tree with [n] nodes (breadth-first or
    in-order): the traversal has [n] entries, the call number [k + 1] of
    [actualizar_animacion_recorrido] returns true exactly when [k + 1 < n],
    and on a non-empty tree the step counter after [k] calls is
    [min k n] and the animation flag is on exactly while [k < n]. *)
Theorem X20_animacion_recorrido
  (v v0 : Visualizador.t) (self : ArbolAVL) (k : nat) :
  v0 = Visualizador.iniciar_recorrido_anchura v self
  \/ v0 = Visualizador.iniciar_recorrido_profundidad v self ->
  length (Visualizador.recorrido_actual v0) = tamano (raiz self)
  /\ fst (Visualizador.actualizar_animacion_recorrido
            (Visualizador.avanzar k v0))
     = (S k <? tamano (raiz self))%nat
  /\ (tamano (raiz self) <> O ->
      Visualizador.paso_recorrido_actual (Visualizador.avanzar k v0)
      = Z.of_nat (Nat.min k (tamano (raiz self)))
      /\ Visualizador.animando_recorrido (Visualizador.avanzar k v0)
         = (k <? tamano (raiz self))%nat).
Proof.
  intros Hv0.
  assert (Hgen : exists recorrido,
             v0 = Visualizador.iniciar_animacion_recorrido v recorrido
             /\ length recorrido = tamano (raiz self)).
  { destruct Hv0 as [->| ->].
    - exists (recorrido_en_anchura self). split; [reflexivity|].
      apply recorrido_en_anchura_length.
    - exists (recorrido_en_profundidad self). split; [reflexivity|].
      rewrite recorrido_en_profundidad_inorden. apply inorden_length. }
  destruct Hgen as (recorrido & -> & Hlen).
  split; [exact Hlen|].
  destruct recorrido as [|o recorrido'].
  - cbn [length] in Hlen. rewrite <- Hlen.
    split; [|intros H; now contradiction H].
    rewrite actualizar_animacion_detenida; [reflexivity|].
    right. clear. induction k as [|k IH]; [reflexivity|].
    rewrite avanzar_siguiente, actualizar_animacion_detenida; auto.
  - set (recorrido := o :: recorrido') in *.
    assert (Hne : recorrido <> []) by discriminate.
    destruct (avanzar_animacion v recorrido k Hne) as (Hr & Hp & Ha).
    rewrite <- Hlen. split; [|intros _; split; assumption].
    destruct (Nat.ltb_spec k (length recorrido)) as [Hlt|Hge].
    + rewrite Nat.min_l in Hp by lia.
      assert (Hne' : Visualizador.recorrido_actual
                       (Visualizador.avanzar k
                          (Visualizador.iniciar_animacion_recorrido
                             v recorrido)) <> []) by (now rewrite Hr).
      destruct (actualizar_animacion_en_curso _ k Ha Hne' Hp) as (H1 & _).
      now rewrite H1, Hr.
    + rewrite (actualizar_animacion_detenida _ (or_introl Ha)).
      cbn [fst]. symmetry. apply Nat.ltb_ge. lia.
Qed.

Section Posiciones.

Import Visualizador.

Variable self : Visualizador.t.
Variable altura_total : Z.





End Posiciones.


(** ** The cart over a whole game *)

(** The calls the game makes on the cart, apart from [actualizar] (whose
    energy consumption is computed in floating point). *)
Inductive accion : Type :=
| MoverAutomaticamente
| Mover (m : Carrito.movimiento)
| Saltar
| RecibirDano (cantidad_dano : Z)
| ActualizarSalto
| Reiniciar (x_inicial y_inicial : Z).

Definition aplicar (f g : Z -> Z -> Z -> Z) (c : Carrito.t) (a : accion)
  : option Carrito.t :=
  match a with
  | MoverAutomaticamente => Some (Carrito.mover_automaticamente c)
  | Mover m => Some (Carrito.mover c m)
  | Saltar => Some (Carrito.saltar c)
  | RecibirDano d => Some (snd (Carrito.recibir_dano c d))
  | ActualizarSalto => Carrito.actualizar_salto f g c
  | Reiniciar x y => Some (Carrito.reiniciar c x y)
  end.

Fixpoint correr (f g : Z -> Z -> Z -> Z) (c : Carrito.t) (acciones : list accion)
  : option Carrito.t :=
  match acciones with
  | [] => Some c
  | a :: acciones' =>
      match aplicar f g c a with
      | Some c' => correr f g c' acciones'
      | None => None
      end
  end.

(** The fields no method ever writes. *)
Definition configuracion (c : Carrito.t) :=
  (Carrito.energia_maxima c, Carrito.velocidad_x c, Carrito.altura_salto c,
   Carrito.duracion_salto c, Carrito.ancho c, Carrito.alto c,
   Carrito.color_normal c, Carrito.color_saltando c).

Lemma aplicar_configuracion f g c a :
  Carrito.duracion_salto c <> 0 ->
  exists c', aplicar f g c a = Some c' /\ configuracion c' = configuracion c.
Proof.
  intros Hd. destruct a as [|m| |d| |x y]; cbn [aplicar].
  - eexists. split; reflexivity.
  - eexists. split; [reflexivity|].
    destruct m; cbn [Carrito.mover];
      unfold Carrito.mover_arriba, Carrito.mover_abajo;
      match goal with |- context [if ?b then _ else _] => destruct b end;
      reflexivity.
  - eexists. split; [reflexivity|]. unfold Carrito.saltar.
    destruct (negb _); reflexivity.
  - eexists. split; [reflexivity|]. unfold Carrito.recibir_dano. cbv zeta.
    destruct (d >? 0); reflexivity.
  - unfold Carrito.actualizar_salto. cbv zeta.
    destruct (Z.eqb_spec (Carrito.duracion_salto c) 0); [contradiction|].
    destruct (_ >=? _); eexists; split; reflexivity.
  - eexists. split; reflexivity.
Qed.

(** X22. Over any sequence of cart calls starting from a new cart (moves,
    jumps, jump frames, hits, restarts) no call fails, the configuration
    fields keep the values [__init__] gave them, and [reiniciar] always
    produces exactly the cart that [__init__] would build with the same
    position and maximum energy. *)
Theorem X22_reiniciar_como_nuevo
  (f g : Z -> Z -> Z -> Z) (x0 y0 e : Z) (acciones : list accion) :
  exists c,
    correr f g (Carrito.init x0 y0 e) acciones = Some c
    /\ configuracion c = configuracion (Carrito.init x0 y0 e)
    /\ forall x y, Carrito.reiniciar c x y = Carrito.init x y e.
Proof.
  assert (Hgen : forall acciones c,
             configuracion c = configuracion (Carrito.init x0 y0 e) ->
             exists c',
               correr f g c acciones = Some c'
               /\ configuracion c' = configuracion (Carrito.init x0 y0 e)).
  { clear acciones. induction acciones as [|a acciones IH]; intros c Hc.
    - exists c. split; [reflexivity|exact Hc].
    - cbn [correr].
      destruct (aplicar_configuracion f g c a) as (c1 & -> & Hc1).
      + unfold configuracion in Hc. cbn in Hc.
        injection Hc as _ _ _ Hd _ _ _ _. rewrite Hd. discriminate.
      + apply IH. congruence. }
  destruct (Hgen acciones (Carrito.init x0 y0 e) eq_refl) as (c & Hrun & Hc).
  exists c. split; [exact Hrun|]. split; [exact Hc|].
  intros x y. unfold configuracion in Hc. cbn in Hc.
  injection Hc as H1 H2 H3 H4 H5 H6 H7 H8.
  unfold Carrito.reiniciar, Carrito.init.
  rewrite H1, H2, H3, H4, H5, H6, H7, H8. reflexivity.
Qed.

(** ** Concrete instances of the further properties *)

Lemma X1_insertar_luego_buscar_witness :
  ordenado (raiz arbol_ejemplo) /\ alturas_ok (raiz arbol_ejemplo)
  /\ presente (roca 7 4) (raiz arbol_ejemplo) = false
  /\ exists self',
      insertar arbol_ejemplo (roca 7 4) = Ok (true, self')
      /\ (exists l r h,
             _buscar_obstaculo (raiz self')
               (Obstaculo.init 7 4 Obstaculo.CONO 10 10)
             = Nodo (roca 7 4) l r h)
      /\ forall p,
          In p (recorrido_en_profundidad self')
          <-> p = roca 7 4 \/ In p (recorrido_en_profundidad arbol_ejemplo).
Proof.
  split; [exact arbol_ejemplo_ordenado|].
  split; [exact arbol_ejemplo_alturas_ok|].
  split; [reflexivity|].
  apply (X1_insertar_luego_buscar arbol_ejemplo (roca 7 4)
           (Obstaculo.init 7 4 Obstaculo.CONO 10 10)
           arbol_ejemplo_ordenado arbol_ejemplo_alturas_ok);
    reflexivity.
Defined.

Lemma X2_eliminar_luego_buscar_witness :
  ordenado (raiz arbol_ejemplo) /\ alturas_ok (raiz arbol_ejemplo)
  /\ presente (roca 2 0) (raiz arbol_ejemplo) = true
  /\ exists self',
      eliminar arbol_ejemplo (roca 2 0) = Ok (true, self')
      /\ _buscar_obstaculo (raiz self') (roca 2 0) = Ninguno
      /\ forall p,
          In p (recorrido_en_profundidad self')
          <-> In p (recorrido_en_profundidad arbol_ejemplo)
              /\ es_igual_a p (roca 2 0) = false.
Proof.
  split; [exact arbol_ejemplo_ordenado|].
  split; [exact arbol_ejemplo_alturas_ok|].
  split; [reflexivity|].
  apply (X2_eliminar_luego_buscar arbol_ejemplo (roca 2 0)
           arbol_ejemplo_ordenado arbol_ejemplo_alturas_ok).
  reflexivity.
Defined.

Lemma X3_insertar_repetido_witness :
  ordenado (raiz arbol_ejemplo) /\ alturas_ok (raiz arbol_ejemplo)
  /\ exists b self',
      insertar arbol_ejemplo (roca 7 4) = Ok (b, self')
      /\ insertar self' (Obstaculo.init 7 4 Obstaculo.CONO 10 10)
         = Ok (false, self')
      /\ exists self'',
          eliminar self' (Obstaculo.init 7 4 Obstaculo.CONO 10 10)
          = Ok (true, self'').
Proof.
  split; [exact arbol_ejemplo_ordenado|].
  split; [exact arbol_ejemplo_alturas_ok|].
  apply (X3_insertar_repetido arbol_ejemplo (roca 7 4)
           (Obstaculo.init 7 4 Obstaculo.CONO 10 10)
           arbol_ejemplo_ordenado arbol_ejemplo_alturas_ok);
    reflexivity.
Defined.

Lemma X4_eliminar_repetido_witness :
  ordenado (raiz arbol_ejemplo) /\ alturas_ok (raiz arbol_ejemplo)
  /\ exists b self',
      eliminar arbol_ejemplo (roca 2 0) = Ok (b, self')
      /\ eliminar self' (Obstaculo.init 2 0 Obstaculo.CONO 10 10)
         = Ok (false, self')
      /\ exists self'',
          insertar self' (Obstaculo.init 2 0 Obstaculo.CONO 10 10)
          = Ok (true, self'').
Proof.
  split; [exact arbol_ejemplo_ordenado|].
  split; [exact arbol_ejemplo_alturas_ok|].
  apply (X4_eliminar_repetido arbol_ejemplo (roca 2 0)
           (Obstaculo.init 2 0 Obstaculo.CONO 10 10)
           arbol_ejemplo_ordenado arbol_ejemplo_alturas_ok);
    reflexivity.
Defined.

Lemma X5_vacio_y_total_witness :
  alcanzable arbol_ejemplo
  /\ 0 <= obtener_total_obstaculos arbol_ejemplo
  /\ (esta_vacio arbol_ejemplo = true
      <-> obtener_total_obstaculos arbol_ejemplo = 0)
  /\ (esta_vacio arbol_ejemplo = true
      <-> recorrido_en_profundidad arbol_ejemplo = [])
  /\ esta_vacio (limpiar arbol_ejemplo) = true
  /\ obtener_total_obstaculos (limpiar arbol_ejemplo) = 0.
Proof.
  split; [exact arbol_ejemplo_alcanzable|].
  exact (X5_vacio_y_total arbol_ejemplo arbol_ejemplo_alcanzable).
Defined.

Lemma X6_altura_logaritmica_witness :
  alcanzable arbol_ejemplo
  /\ 2 ^ (obtener_altura (raiz arbol_ejemplo) / 2)
     <= obtener_total_obstaculos arbol_ejemplo + 1.
Proof.
  split; [exact arbol_ejemplo_alcanzable|].
  exact (X6_altura_logaritmica arbol_ejemplo arbol_ejemplo_alcanzable).
Defined.

Lemma X7_altura_almacenada_witness :
  alcanzable arbol_ejemplo
  /\ obtener_altura (raiz arbol_ejemplo)
     = _calcular_altura (raiz arbol_ejemplo)
  /\ forall n, es_subarbol n (raiz arbol_ejemplo) ->
               obtener_altura n = _calcular_altura n.
Proof.
  split; [exact arbol_ejemplo_alcanzable|].
  exact (X7_altura_almacenada arbol_ejemplo arbol_ejemplo_alcanzable).
Defined.

Lemma X8_rotaciones_inversas_witness :
  alturas_ok (raiz arbol_ejemplo)
  /\ exists nodo',
      rotar_derecha (raiz arbol_ejemplo) = Ok nodo'
      /\ rotar_izquierda nodo' = Ok (raiz arbol_ejemplo).
Proof.
  split; [exact arbol_ejemplo_alturas_ok|].
  eexists. split; [reflexivity|].
  apply (X8_rotaciones_inversas (raiz arbol_ejemplo) _
           arbol_ejemplo_alturas_ok).
  reflexivity.
Defined.

Lemma X9_balancear_conserva_entradas_witness :
  exists nodo',
    balancear
      (Nodo (roca 3 0)
         (Nodo (roca 2 0) (Nodo (roca 1 0) Ninguno Ninguno 1) Ninguno 2)
         Ninguno 3) = Ok nodo'
    /\ inorden nodo' = [roca 1 0; roca 2 0; roca 3 0]
    /\ tamano nodo' = 3%nat.
Proof.
  eexists. split; [reflexivity|].
  destruct (X9_balancear_conserva_entradas
              (Nodo (roca 3 0)
                 (Nodo (roca 2 0) (Nodo (roca 1 0) Ninguno Ninguno 1)
                    Ninguno 2)
                 Ninguno 3) _ (or_introl eq_refl)) as (H1 & H2 & _).
  split; [exact H1|exact H2].
Defined.

Lemma X11_rango_tras_actualizar_witness :
  ordenado (raiz arbol_ejemplo) /\ alturas_ok (raiz arbol_ejemplo)
  /\ (exists self',
         insertar arbol_ejemplo (roca 7 4) = Ok (true, self')
         /\ In (roca 7 4) (buscar_en_rango self' 5 10 0 5))
  /\ exists b self',
      eliminar arbol_ejemplo (roca 7 4) = Ok (b, self')
      /\ forall p, In p (buscar_en_rango self' 5 10 0 5) ->
                   es_igual_a p (roca 7 4) = false.
Proof.
  split; [exact arbol_ejemplo_ordenado|].
  split; [exact arbol_ejemplo_alturas_ok|].
  destruct (X11_rango_tras_actualizar arbol_ejemplo (roca 7 4) 5 10 0 5
              arbol_ejemplo_ordenado arbol_ejemplo_alturas_ok)
    as [Hins Hdel].
  split; [|exact Hdel].
  apply Hins; [reflexivity|cbn; lia|cbn; lia].
Defined.

Lemma X14_carriles_witness :
  0 <= Carrito.y (Carrito.init 50 2 100) <= 5
  /\ 0 <= Carrito.y
            (fold_left Carrito.mover
               [Carrito.Arriba; Carrito.Arriba; Carrito.Arriba;
                Carrito.Arriba; Carrito.Abajo]
               (Carrito.init 50 2 100)) <= 5.
Proof.
  assert (H : 0 <= Carrito.y (Carrito.init 50 2 100) <= 5) by (cbn; lia).
  split; [exact H|].
  apply (X14_carriles (Carrito.init 50 2 100) _ H).
Defined.

Lemma X15_recibir_dano_witness :
  0 <= Carrito.energia_actual (Carrito.init 50 2 100)
  /\ 0 <= Carrito.energia_actual
            (Carrito.recibir_danos (Carrito.init 50 2 100) [20; 0; 90; 5])
       <= Carrito.energia_actual (Carrito.init 50 2 100).
Proof.
  assert (H : 0 <= Carrito.energia_actual (Carrito.init 50 2 100))
    by (cbn; lia).
  split; [exact H|].
  apply (X15_recibir_dano (Carrito.init 50 2 100) 20 [20; 0; 90; 5] H).
Defined.

Lemma X17_colision_en_rango_witness :
  ordenado (raiz arbol_ejemplo)
  /\ In (roca 2 0) (recorrido_en_profundidad arbol_ejemplo)
  /\ Obstaculo.ancho (roca 2 0) <= 30
  /\ Carrito.colisiona_con (Carrito.init 0 0 100) (roca 2 0) = true
  /\ In (roca 2 0)
       (buscar_en_rango arbol_ejemplo
          (Carrito.x (Carrito.init 0 0 100) - 30)
          (Carrito.x (Carrito.init 0 0 100)
           + Carrito.ancho (Carrito.init 0 0 100))
          (Carrito.y (Carrito.init 0 0 100))
          (Carrito.y (Carrito.init 0 0 100))).
Proof.
  split; [exact arbol_ejemplo_ordenado|].
  assert (Hin : In (roca 2 0) (recorrido_en_profundidad arbol_ejemplo))
    by (right; left; reflexivity).
  assert (HW : Obstaculo.ancho (roca 2 0) <= 30) by (cbn; lia).
  split; [exact Hin|]. split; [exact HW|]. split; [reflexivity|].
  apply (X17_colision_en_rango arbol_ejemplo (Carrito.init 0 0 100)
           (roca 2 0) 30 arbol_ejemplo_ordenado Hin HW).
  reflexivity.
Defined.


Lemma X20_animacion_recorrido_witness :
  length (Visualizador.recorrido_actual
            (Visualizador.iniciar_recorrido_anchura
               (Visualizador.init 400 400) arbol_ejemplo))
  = tamano (raiz arbol_ejemplo)
  /\ fst (Visualizador.actualizar_animacion_recorrido
            (Visualizador.avanzar 1
               (Visualizador.iniciar_recorrido_anchura
                  (Visualizador.init 400 400) arbol_ejemplo)))
     = (2 <? tamano (raiz arbol_ejemplo))%nat.
Proof.
  destruct (X20_animacion_recorrido (Visualizador.init 400 400)
              (Visualizador.iniciar_recorrido_anchura
                 (Visualizador.init 400 400) arbol_ejemplo)
              arbol_ejemplo 1 (or_introl eq_refl)) as (H1 & H2 & _).
  split; [exact H1|exact H2].
Defined.

